(** * io_wrapper_statistics: a shallow embedding of [src/src/lib.rs]

    The crate wraps a Rust I/O object in [IOStatWrapper] and counts the
    calls made through it.  Rust's primitive integer arithmetic depends on the
    build profile: with overflow checks on (the default debug profile) an
    overflowing [+] or [-] panics, with them off (the default release profile)
    it wraps around.  [debug_assert_eq!] only runs when debug assertions are
    on.  Both switches are explicit here in a [Profile] record, and a panic is
    the [None] of an option. *)

From Stdlib Require Import ZArith List Bool Lia.
From Stdlib Require Import Init.Byte.
Import ListNotations.
Open Scope Z_scope.

(** ** Build profile and panics *)

Record Profile := mkProfile {
  overflow_checks : bool;
  debug_assertions : bool
}.

Definition dev_profile : Profile := mkProfile true true.
Definition release_profile : Profile := mkProfile false false.

(** A computation that either returns or panics ([None]). *)
Definition Panicking (A : Type) : Type := option A.

Definition ret {A} (a : A) : Panicking A := Some a.
Definition panic {A} : Panicking A := None.

Notation "x <- m ;; k" :=
  (match m with Some x => k | None => None end)
  (at level 61, m at next level, right associativity).

(** [Option::unwrap] *)
Definition unwrap {A} (o : option A) : Panicking A := o.

(** [assert!] / [assert_eq!] *)
Definition assert_true (b : bool) : Panicking unit :=
  if b then ret tt else panic.

(** ** Fixed-width integers *)

Definition u64_bits : Z := 64.
(** The crate is built for a 64-bit target: [usize] has 64 bits. *)
Definition usize_bits : Z := 64.

Definition u64_max : Z := 2 ^ 64 - 1.
Definition i64_min : Z := - 2 ^ 63.
Definition i64_max : Z := 2 ^ 63 - 1.

Definition in_unsigned (w x : Z) : bool := (0 <=? x) && (x <? 2 ^ w).
Definition in_i64 (x : Z) : bool := (i64_min <=? x) && (x <=? i64_max).

(** [a + b] on a [w]-bit unsigned integer. *)
Definition uadd (p : Profile) (w a b : Z) : Panicking Z :=
  if overflow_checks p then
    (if a + b <? 2 ^ w then ret (a + b) else panic)
  else ret ((a + b) mod 2 ^ w).

(** [a - b] on a [w]-bit unsigned integer. *)
Definition usub (p : Profile) (w a b : Z) : Panicking Z :=
  if overflow_checks p then
    (if 0 <=? a - b then ret (a - b) else panic)
  else ret ((a - b) mod 2 ^ w).

(** [i64::abs]: overflows only at [i64::MIN]. *)
Definition i64_abs (p : Profile) (x : Z) : Panicking Z :=
  if x <? 0 then
    (if - x <=? i64_max then ret (- x)
     else if overflow_checks p then panic else ret x)
  else ret x.

(** [i64::signum] *)
Definition i64_signum (x : Z) : Z := Z.sgn x.

(** [<u64 as NumCast>::from::<i64>]: [Some] exactly for non-negative values. *)
Definition u64_from_i64 (x : Z) : option Z :=
  if 0 <=? x then Some x else None.

(** [u64::try_from::<usize>] (an [Err] becomes [None]). *)
Definition u64_try_from_usize (n : Z) : option Z :=
  if in_unsigned u64_bits n then Some n else None.

(** ** [SuccessFailureCounter<T>], [T] an unsigned type of [w] bits *)

Record SuccessFailureCounter := mkSFC {
  success_ctr : Z;
  failure_ctr : Z
}.

(** [#[derive(Default)]] *)
Definition sfc_default : SuccessFailureCounter := mkSFC 0 0.

Section Counter.
Variable p : Profile.
Variable w : Z.

Definition increment_success (c : SuccessFailureCounter)
  : Panicking SuccessFailureCounter :=
  s <- uadd p w (success_ctr c) 1 ;; ret (mkSFC s (failure_ctr c)).

Definition add_successes (c : SuccessFailureCounter) (amount : Z)
  : Panicking SuccessFailureCounter :=
  s <- uadd p w (success_ctr c) amount ;; ret (mkSFC s (failure_ctr c)).

Definition increment_failure (c : SuccessFailureCounter)
  : Panicking SuccessFailureCounter :=
  f <- uadd p w (failure_ctr c) 1 ;; ret (mkSFC (success_ctr c) f).

Definition add_failures (c : SuccessFailureCounter) (amount : Z)
  : Panicking SuccessFailureCounter :=
  f <- uadd p w (failure_ctr c) amount ;; ret (mkSFC (success_ctr c) f).

Definition attempt_ctr (c : SuccessFailureCounter) : Panicking Z :=
  uadd p w (success_ctr c) (failure_ctr c).

End Counter.

(** ** [SignedAbsResult] and [abs_sign_tuple::<i64, u64>] *)

Inductive SignedAbsResult :=
| Negative (m : Z)
| Zero
| Positive (m : Z).

Definition abs_sign_tuple (p : Profile) (signed_number : Z)
  : Panicking SignedAbsResult :=
  if i64_signum signed_number =? 1 then
    a <- i64_abs p signed_number ;;
    m <- unwrap (u64_from_i64 a) ;;
    ret (Positive m)
  else if i64_signum signed_number =? 0 then
    ret Zero
  else if i64_signum signed_number =? -1 then
    if signed_number =? i64_min then
      m <- unwrap (u64_from_i64 i64_max) ;;
      v <- uadd p u64_bits m 1 ;;
      ret (Negative v)
    else
      a <- i64_abs p signed_number ;;
      m <- unwrap (u64_from_i64 a) ;;
      ret (Negative m)
  else panic (* unreachable!() *).

Notation "' pat <- m ;; k" :=
  (match m with Some pat => k | None => None end)
  (at level 61, pat pattern, m at next level, right associativity).

(** ** [std::io] types used by the wrapper *)

Inductive Result (A E : Type) :=
| Ok (a : A)
| Err (e : E).
Arguments Ok {A E} a.
Arguments Err {A E} e.

(** A coarse subset of [std::io::ErrorKind]. *)
Inductive ErrorKind :=
| NotFound
| PermissionDenied
| Interrupted
| WouldBlock
| InvalidInput
| UnexpectedEof
| WriteZero
| Other.

(** [std::io::Error]: a kind plus the detail it carries (not copyable). *)
Record io_error := mkIoError {
  error_kind : ErrorKind;
  error_detail : list byte
}.

(** [std::io::Error::kind] *)
Definition kind (e : io_error) : ErrorKind := error_kind e.

(** [std::io::Result<A>] *)
Definition IOResult (A : Type) : Type := Result A io_error.

(** [std::io::SeekFrom]; [End] is a keyword of Rocq, hence [End']. *)
Module SeekFrom.
Inductive t :=
| Start (n : Z)
| End' (d : Z)
| Current (d : Z).
End SeekFrom.

(** [IopActions] *)
Module IopActions.
Inductive t :=
| Read (len : Z)
| Seek (pos : SeekFrom.t)
| Write (len : Z)
| Flush.
End IopActions.

(** [IopResults]: only the [ErrorKind] of a failure is kept. *)
Module IopResults.
Inductive t :=
| Read (r : Result Z ErrorKind)
| Seek (r : Result Z ErrorKind)
| Write (r : Result Z ErrorKind)
| Flush (r : Result unit ErrorKind).
End IopResults.

Definition IopInfoPair : Type := IopActions.t * IopResults.t.

(** ** The traits of [std::io] and of the log container

    The wrapped object [T] is abstract: each trait method is a function
    from the object's state (and the call's arguments) to its new state and
    the call's result.  Buffers filled by a read are returned. *)

Module Io.

Class Read (T : Type) := {
  read : T -> list byte -> T * list byte * IOResult Z;
  read_vectored : T -> list (list byte) -> T * list (list byte) * IOResult Z;
  read_to_end : T -> list byte -> T * list byte * IOResult Z;
  read_to_string : T -> list byte -> T * list byte * IOResult Z;
  read_exact : T -> list byte -> T * list byte * IOResult unit
}.

Class Seek (T : Type) := {
  seek : T -> SeekFrom.t -> T * IOResult Z;
  rewind : T -> T * IOResult unit;
  stream_position : T -> T * IOResult Z
}.

(** [write_fmt] takes the formatted text as its argument. *)
Class Write (T : Type) := {
  write : T -> list byte -> T * IOResult Z;
  flush : T -> T * IOResult unit;
  write_vectored : T -> list (list byte) -> T * IOResult Z;
  write_all : T -> list byte -> T * IOResult unit;
  write_fmt : T -> list byte -> T * IOResult unit
}.

End Io.

(** [C: Default + Extend<IopInfoPair>] *)
Class LogContainer (C : Type) := {
  log_default : C;
  log_extend : C -> list IopInfoPair -> C
}.

(** [Vec<IopInfoPair>]: [Default] is the empty vector, [Extend] appends. *)
#[global] Instance vec_log : LogContainer (list IopInfoPair) := {
  log_default := [];
  log_extend := fun v items => v ++ items
}.

(** A discarding container, [()]: logging switched off. *)
#[global] Instance unit_log : LogContainer unit := {
  log_default := tt;
  log_extend := fun _ _ => tt
}.

(** ** [IOStatWrapper<T, C>] *)

Record IOStatWrapper (T C : Type) := mkIOStatWrapper {
  inner_io : T;
  iop_log : C;
  read_call_counter : SuccessFailureCounter;
  read_byte_counter : Z;
  seek_call_counter : SuccessFailureCounter;
  seek_pos : Z;
  write_call_counter : SuccessFailureCounter;
  write_flush_counter : SuccessFailureCounter;
  write_byte_counter : Z
}.
Arguments mkIOStatWrapper {T C}.
Arguments inner_io {T C}.
Arguments iop_log {T C}.
Arguments read_call_counter {T C}.
Arguments read_byte_counter {T C}.
Arguments seek_call_counter {T C}.
Arguments seek_pos {T C}.
Arguments write_call_counter {T C}.
Arguments write_flush_counter {T C}.
Arguments write_byte_counter {T C}.

Section Wrapper.
Context {T C : Type} `{LogContainer C}.

Definition new (obj : T) (start_seek_pos : Z) : IOStatWrapper T C :=
  {| inner_io := obj;
     iop_log := log_default;
     read_call_counter := sfc_default;
     read_byte_counter := 0;
     seek_call_counter := sfc_default;
     seek_pos := start_seek_pos;
     write_call_counter := sfc_default;
     write_flush_counter := sfc_default;
     write_byte_counter := 0 |}.

Definition into_inner (s : IOStatWrapper T C) : T := inner_io s.

(** [self.iop_log.extend(extend_item)] *)
Definition extend_log (s : IOStatWrapper T C) (items : list IopInfoPair)
  : IOStatWrapper T C :=
  {| inner_io := inner_io s;
     iop_log := log_extend (iop_log s) items;
     read_call_counter := read_call_counter s;
     read_byte_counter := read_byte_counter s;
     seek_call_counter := seek_call_counter s;
     seek_pos := seek_pos s;
     write_call_counter := write_call_counter s;
     write_flush_counter := write_flush_counter s;
     write_byte_counter := write_byte_counter s |}.

(** Replacing the wrapped object after a call to it. *)
Definition set_inner (s : IOStatWrapper T C) (t : T) : IOStatWrapper T C :=
  {| inner_io := t;
     iop_log := iop_log s;
     read_call_counter := read_call_counter s;
     read_byte_counter := read_byte_counter s;
     seek_call_counter := seek_call_counter s;
     seek_pos := seek_pos s;
     write_call_counter := write_call_counter s;
     write_flush_counter := write_flush_counter s;
     write_byte_counter := write_byte_counter s |}.

End Wrapper.

(** [debug_assert_eq!(lhs, rhs)]: both sides are evaluated only when debug
    assertions are on. *)
Definition debug_assert_eq (p : Profile) (lhs : Panicking Z) (rhs : Z)
  : Panicking unit :=
  if debug_assertions p then (v <- lhs ;; assert_true (v =? rhs))
  else ret tt.

(** The consistency check of [seek] for [SeekFrom::Current(offset)]. *)
Definition seek_current_check (p : Profile) (old_pos offset n : Z)
  : Panicking unit :=
  r <- abs_sign_tuple p offset ;;
  match r with
  | Zero => debug_assert_eq p (ret old_pos) n
  | Positive a => debug_assert_eq p (uadd p u64_bits old_pos a) n
  | Negative a => debug_assert_eq p (usub p u64_bits old_pos a) n
  end.

Section Ops.
Context {T C : Type} `{LogContainer C}.
Variable p : Profile.

(** [impl Read for IOStatWrapper]: [read] *)
Definition read `{Io.Read T} (s : IOStatWrapper T C) (buf : list byte)
  : Panicking (IOStatWrapper T C * list byte * IOResult Z) :=
  let '(t, buf', read_result) := Io.read (inner_io s) buf in
  ' (s1, extend_item) <-
    match read_result with
    | Ok n =>
        rc <- increment_success p u64_bits (read_call_counter s) ;;
        rb <- uadd p usize_bits (read_byte_counter s) n ;;
        d <- unwrap (u64_try_from_usize n) ;;
        sp <- uadd p u64_bits (seek_pos s) d ;;
        ret ({| inner_io := t;
                iop_log := iop_log s;
                read_call_counter := rc;
                read_byte_counter := rb;
                seek_call_counter := seek_call_counter s;
                seek_pos := sp;
                write_call_counter := write_call_counter s;
                write_flush_counter := write_flush_counter s;
                write_byte_counter := write_byte_counter s |},
             [(IopActions.Read (Z.of_nat (length buf)),
               IopResults.Read (Ok n))])
    | Err e =>
        rc <- increment_failure p u64_bits (read_call_counter s) ;;
        ret ({| inner_io := t;
                iop_log := iop_log s;
                read_call_counter := rc;
                read_byte_counter := read_byte_counter s;
                seek_call_counter := seek_call_counter s;
                seek_pos := seek_pos s;
                write_call_counter := write_call_counter s;
                write_flush_counter := write_flush_counter s;
                write_byte_counter := write_byte_counter s |},
             [(IopActions.Read (Z.of_nat (length buf)),
               IopResults.Read (Err (kind e)))])
    end ;;
  ret (extend_log s1 extend_item, buf', read_result).

(** [impl Seek for IOStatWrapper]: [seek] *)
Definition seek `{Io.Seek T} (s : IOStatWrapper T C) (pos : SeekFrom.t)
  : Panicking (IOStatWrapper T C * IOResult Z) :=
  let old_pos := seek_pos s in
  let '(t, seek_result) := Io.seek (inner_io s) pos in
  ' (s1, extend_item) <-
    match seek_result with
    | Ok n =>
        sc <- increment_success p u64_bits (seek_call_counter s) ;;
        let s0 :=
          {| inner_io := t;
             iop_log := iop_log s;
             read_call_counter := read_call_counter s;
             read_byte_counter := read_byte_counter s;
             seek_call_counter := sc;
             seek_pos := n;
             write_call_counter := write_call_counter s;
             write_flush_counter := write_flush_counter s;
             write_byte_counter := write_byte_counter s |} in
        _ <- match pos with
             | SeekFrom.Current offset => seek_current_check p old_pos offset n
             | _ => ret tt
             end ;;
        ret (s0, [(IopActions.Seek pos, IopResults.Seek (Ok n))])
    | Err e =>
        sc <- increment_failure p u64_bits (seek_call_counter s) ;;
        ret ({| inner_io := t;
                iop_log := iop_log s;
                read_call_counter := read_call_counter s;
                read_byte_counter := read_byte_counter s;
                seek_call_counter := sc;
                seek_pos := seek_pos s;
                write_call_counter := write_call_counter s;
                write_flush_counter := write_flush_counter s;
                write_byte_counter := write_byte_counter s |},
             [(IopActions.Seek pos, IopResults.Seek (Err (kind e)))])
    end ;;
  ret (extend_log s1 extend_item, seek_result).

(** [impl Write for IOStatWrapper]: [write] *)
Definition write `{Io.Write T} (s : IOStatWrapper T C) (buf : list byte)
  : Panicking (IOStatWrapper T C * IOResult Z) :=
  let '(t, write_result) := Io.write (inner_io s) buf in
  ' (s1, extend_item) <-
    match write_result with
    | Ok n =>
        wc <- increment_success p u64_bits (write_call_counter s) ;;
        wb <- uadd p usize_bits (write_byte_counter s) n ;;
        d <- unwrap (u64_try_from_usize n) ;;
        sp <- uadd p u64_bits (seek_pos s) d ;;
        ret ({| inner_io := t;
                iop_log := iop_log s;
                read_call_counter := read_call_counter s;
                read_byte_counter := read_byte_counter s;
                seek_call_counter := seek_call_counter s;
                seek_pos := sp;
                write_call_counter := wc;
                write_flush_counter := write_flush_counter s;
                write_byte_counter := wb |},
             [(IopActions.Write (Z.of_nat (length buf)),
               IopResults.Write (Ok n))])
    | Err e =>
        wc <- increment_failure p u64_bits (write_call_counter s) ;;
        ret ({| inner_io := t;
                iop_log := iop_log s;
                read_call_counter := read_call_counter s;
                read_byte_counter := read_byte_counter s;
                seek_call_counter := seek_call_counter s;
                seek_pos := seek_pos s;
                write_call_counter := wc;
                write_flush_counter := write_flush_counter s;
                write_byte_counter := write_byte_counter s |},
             [(IopActions.Write (Z.of_nat (length buf)),
               IopResults.Write (Err (kind e)))])
    end ;;
  ret (extend_log s1 extend_item, write_result).

(** [impl Write for IOStatWrapper]: [flush] *)
Definition flush `{Io.Write T} (s : IOStatWrapper T C)
  : Panicking (IOStatWrapper T C * IOResult unit) :=
  let '(t, flush_result) := Io.flush (inner_io s) in
  ' (fc, extend_item) <-
    match flush_result with
    | Ok tt =>
        fc <- increment_success p u64_bits (write_flush_counter s) ;;
        ret (fc, [(IopActions.Flush, IopResults.Flush (Ok tt))])
    | Err e =>
        fc <- increment_failure p u64_bits (write_flush_counter s) ;;
        ret (fc, [(IopActions.Flush, IopResults.Flush (Err (kind e)))])
    end ;;
  ret (extend_log
         {| inner_io := t;
            iop_log := iop_log s;
            read_call_counter := read_call_counter s;
            read_byte_counter := read_byte_counter s;
            seek_call_counter := seek_call_counter s;
            seek_pos := seek_pos s;
            write_call_counter := write_call_counter s;
            write_flush_counter := fc;
            write_byte_counter := write_byte_counter s |} extend_item,
       flush_result).

End Ops.

(** ** The provided methods passed straight through to [inner_io] *)

Section Passthrough.
Context {T C : Type}.

Definition read_vectored `{Io.Read T} (s : IOStatWrapper T C)
  (bufs : list (list byte)) : IOStatWrapper T C * list (list byte) * IOResult Z :=
  let '(t, bufs', r) := Io.read_vectored (inner_io s) bufs in
  (set_inner s t, bufs', r).

Definition read_to_end `{Io.Read T} (s : IOStatWrapper T C)
  (buf : list byte) : IOStatWrapper T C * list byte * IOResult Z :=
  let '(t, buf', r) := Io.read_to_end (inner_io s) buf in
  (set_inner s t, buf', r).

Definition read_to_string `{Io.Read T} (s : IOStatWrapper T C)
  (buf : list byte) : IOStatWrapper T C * list byte * IOResult Z :=
  let '(t, buf', r) := Io.read_to_string (inner_io s) buf in
  (set_inner s t, buf', r).

Definition read_exact `{Io.Read T} (s : IOStatWrapper T C)
  (buf : list byte) : IOStatWrapper T C * list byte * IOResult unit :=
  let '(t, buf', r) := Io.read_exact (inner_io s) buf in
  (set_inner s t, buf', r).

Definition rewind `{Io.Seek T} (s : IOStatWrapper T C)
  : IOStatWrapper T C * IOResult unit :=
  let '(t, r) := Io.rewind (inner_io s) in (set_inner s t, r).

Definition stream_position `{Io.Seek T} (s : IOStatWrapper T C)
  : IOStatWrapper T C * IOResult Z :=
  let '(t, r) := Io.stream_position (inner_io s) in (set_inner s t, r).

Definition write_vectored `{Io.Write T} (s : IOStatWrapper T C)
  (bufs : list (list byte)) : IOStatWrapper T C * IOResult Z :=
  let '(t, r) := Io.write_vectored (inner_io s) bufs in (set_inner s t, r).

Definition write_all `{Io.Write T} (s : IOStatWrapper T C)
  (buf : list byte) : IOStatWrapper T C * IOResult unit :=
  let '(t, r) := Io.write_all (inner_io s) buf in (set_inner s t, r).

Definition write_fmt `{Io.Write T} (s : IOStatWrapper T C)
  (fmt : list byte) : IOStatWrapper T C * IOResult unit :=
  let '(t, r) := Io.write_fmt (inner_io s) fmt in (set_inner s t, r).

End Passthrough.

(** ** A concrete wrapped object for examples: [std::io::Cursor<&mut [u8]>]

    A model of the standard library's in-memory cursor over a fixed-size
    byte slice (the object used by [tests/wrapper_test.rs]); it is not code
    of this crate and only serves to run the wrapper on concrete inputs. *)

Module Cursor.

Record t := mk {
  data : list byte;
  pos : Z
}.

Definition len (c : t) : Z := Z.of_nat (length (data c)).

(** [remaining_slice]: the bytes from [min(pos, len)] on. *)
Definition remaining (c : t) : list byte :=
  skipn (Z.to_nat (Z.min (pos c) (len c))) (data c).

Definition cursor_read (c : t) (buf : list byte) : t * list byte * IOResult Z :=
  let rem := remaining c in
  let amt := Nat.min (length buf) (length rem) in
  (mk (data c) (pos c + Z.of_nat amt),
   firstn amt rem ++ skipn amt buf,
   Ok (Z.of_nat amt)).

Fixpoint cursor_read_vectored_aux (c : t) (bufs : list (list byte)) (acc : Z)
  : t * list (list byte) * IOResult Z :=
  match bufs with
  | [] => (c, [], Ok acc)
  | b :: rest =>
      let '(c1, b1, r) := cursor_read c b in
      let n := match r with Ok n => n | Err _ => 0 end in
      let '(c2, rest', r') := cursor_read_vectored_aux c1 rest (acc + n) in
      (c2, b1 :: rest', r')
  end.

Definition cursor_read_to_end (c : t) (buf : list byte)
  : t * list byte * IOResult Z :=
  let rem := remaining c in
  (mk (data c) (pos c + Z.of_nat (length rem)), buf ++ rem,
   Ok (Z.of_nat (length rem))).

Definition cursor_read_exact (c : t) (buf : list byte)
  : t * list byte * IOResult unit :=
  let rem := remaining c in
  if Nat.leb (length buf) (length rem) then
    (mk (data c) (pos c + Z.of_nat (length buf)),
     firstn (length buf) rem, Ok tt)
  else
    (mk (data c) (len c), buf, Err (mkIoError UnexpectedEof [])).

Definition cursor_seek (c : t) (sf : SeekFrom.t) : t * IOResult Z :=
  let target :=
    match sf with
    | SeekFrom.Start n => n
    | SeekFrom.End' d => len c + d
    | SeekFrom.Current d => pos c + d
    end in
  if in_unsigned u64_bits target then (mk (data c) target, Ok target)
  else (c, Err (mkIoError InvalidInput [])).

Definition cursor_write (c : t) (buf : list byte) : t * IOResult Z :=
  let start := Nat.min (Z.to_nat (pos c)) (length (data c)) in
  let amt := Nat.min (length buf) (length (data c) - start) in
  (mk (firstn start (data c) ++ firstn amt buf ++ skipn (start + amt) (data c))
      (pos c + Z.of_nat amt),
   Ok (Z.of_nat amt)).

Definition cursor_write_all (c : t) (buf : list byte) : t * IOResult unit :=
  let '(c1, r) := cursor_write c buf in
  match r with
  | Ok n => if n =? Z.of_nat (length buf) then (c1, Ok tt)
            else (c1, Err (mkIoError WriteZero []))
  | Err e => (c1, Err e)
  end.

Fixpoint cursor_write_vectored_aux (c : t) (bufs : list (list byte)) (acc : Z)
  : t * IOResult Z :=
  match bufs with
  | [] => (c, Ok acc)
  | b :: rest =>
      let '(c1, r) := cursor_write c b in
      let n := match r with Ok n => n | Err _ => 0 end in
      cursor_write_vectored_aux c1 rest (acc + n)
  end.

#[global] Instance cursor_read_inst : Io.Read t := {
  read := cursor_read;
  read_vectored := fun c bufs => cursor_read_vectored_aux c bufs 0;
  read_to_end := cursor_read_to_end;
  read_to_string := cursor_read_to_end;
  read_exact := cursor_read_exact
}.

#[global] Instance cursor_seek_inst : Io.Seek t := {
  seek := cursor_seek;
  rewind := fun c => (mk (data c) 0, Ok tt);
  stream_position := fun c => (c, Ok (pos c))
}.

#[global] Instance cursor_write_inst : Io.Write t := {
  write := cursor_write;
  flush := fun c => (c, Ok tt);
  write_vectored := fun c bufs => cursor_write_vectored_aux c bufs 0;
  write_all := cursor_write_all;
  write_fmt := cursor_write_all
}.

End Cursor.



(** ** Range predicates *)

Definition sfc_in_range (w : Z) (c : SuccessFailureCounter) : bool :=
  in_unsigned w (success_ctr c) && in_unsigned w (failure_ctr c).

Definition wrapper_in_range {T C} (s : IOStatWrapper T C) : bool :=
  sfc_in_range u64_bits (read_call_counter s) &&
  in_unsigned usize_bits (read_byte_counter s) &&
  sfc_in_range u64_bits (seek_call_counter s) &&
  in_unsigned u64_bits (seek_pos s) &&
  sfc_in_range u64_bits (write_call_counter s) &&
  sfc_in_range u64_bits (write_flush_counter s) &&
  in_unsigned usize_bits (write_byte_counter s).

(** [SeekFrom] carries a [u64] or an [i64]. *)
Definition seekfrom_in_range (sf : SeekFrom.t) : bool :=
  match sf with
  | SeekFrom.Start n => in_unsigned u64_bits n
  | SeekFrom.End' d | SeekFrom.Current d => in_i64 d
  end.

(** The fields other than [inner_io]. *)
Definition same_stats {T C} (s s' : IOStatWrapper T C) : Prop :=
  iop_log s' = iop_log s /\
  read_call_counter s' = read_call_counter s /\
  read_byte_counter s' = read_byte_counter s /\
  seek_call_counter s' = seek_call_counter s /\
  seek_pos s' = seek_pos s /\
  write_call_counter s' = write_call_counter s /\
  write_flush_counter s' = write_flush_counter s /\
  write_byte_counter s' = write_byte_counter s.

(** A wrapper over a cursor standing at [inner_pos], created with the
    shadow cursor at [start]. *)
Definition cursor_wrapper (data : list byte) (inner_pos start : Z)
  : IOStatWrapper Cursor.t (list IopInfoPair) :=
  new (Cursor.mk data inner_pos) start.

(** The scenario of [tests/wrapper_test.rs]. *)
Definition test_bytes : list byte := [x00; x01; x02; x03; x04; x05; x06; x07].

Definition basic_counts_scenario (p : Profile)
  : Panicking (IOStatWrapper Cursor.t (list IopInfoPair)) :=
  let w0 : IOStatWrapper Cursor.t (list IopInfoPair) :=
    new (Cursor.mk test_bytes 0) 0 in
  ' (w1, buf, _) <- read p w0 (repeat x00 8) ;;
  ' (w2, _) <- seek p w1 (SeekFrom.Start 4) ;;
  ' (w3, _) <- write p w2 (firstn 4 buf) ;;
  ret w3.

(** ** Sequences of calls *)

(** Successive [read] calls, one per buffer. *)
Fixpoint reads {T C} `{LogContainer C} `{Io.Read T} (p : Profile)
  (s : IOStatWrapper T C) (bufs : list (list byte))
  : Panicking (IOStatWrapper T C * list (IOResult Z)) :=
  match bufs with
  | [] => ret (s, [])
  | b :: bs =>
      ' (s1, _, r) <- read p s b ;;
      ' (s2, rs) <- reads p s1 bs ;;
      ret (s2, r :: rs)
  end.

(** The bytes reported by the successful results of a sequence. *)
Fixpoint ok_total (rs : list (IOResult Z)) : Z :=
  match rs with
  | [] => 0
  | Ok n :: rs' => n + ok_total rs'
  | Err _ :: rs' => ok_total rs'
  end.

Definition all_ok_usize (rs : list (IOResult Z)) : Prop :=
  Forall (fun r => exists n, r = Ok n /\ 0 <= n < 2 ^ usize_bits) rs.

(** The four mutators of [SuccessFailureCounter]. *)
Inductive CounterOp :=
| IncrementSuccess
| IncrementFailure
| AddSuccesses (amount : Z)
| AddFailures (amount : Z).

Definition apply_counter_op (p : Profile) (w : Z) (c : SuccessFailureCounter)
  (op : CounterOp) : Panicking SuccessFailureCounter :=
  match op with
  | IncrementSuccess => increment_success p w c
  | IncrementFailure => increment_failure p w c
  | AddSuccesses a => add_successes p w c a
  | AddFailures a => add_failures p w c a
  end.

Fixpoint run_counter_ops (p : Profile) (w : Z) (c : SuccessFailureCounter)
  (ops : list CounterOp) : Panicking SuccessFailureCounter :=
  match ops with
  | [] => ret c
  | op :: ops' => c1 <- apply_counter_op p w c op ;; run_counter_ops p w c1 ops'
  end.

(** The unbounded totals the operations add. *)
Fixpoint successes_added (ops : list CounterOp) : Z :=
  match ops with
  | [] => 0
  | IncrementSuccess :: ops' => 1 + successes_added ops'
  | AddSuccesses a :: ops' => a + successes_added ops'
  | _ :: ops' => successes_added ops'
  end.

Fixpoint failures_added (ops : list CounterOp) : Z :=
  match ops with
  | [] => 0
  | IncrementFailure :: ops' => 1 + failures_added ops'
  | AddFailures a :: ops' => a + failures_added ops'
  | _ :: ops' => failures_added ops'
  end.

(** Amounts are values of the [w]-bit type. *)
Definition op_in_range (w : Z) (op : CounterOp) : bool :=
  match op with
  | AddSuccesses a | AddFailures a => in_unsigned w a
  | _ => true
  end.

(** ** Runs of primitive calls and what the log records of them *)

(** One call of a primitive method of the wrapper. *)
Inductive Op :=
| OpRead (buf : list byte)
| OpSeek (pos : SeekFrom.t)
| OpWrite (buf : list byte)
| OpFlush.

(** What the call hands back to its caller. *)
Inductive OpResult :=
| ResRead (buf : list byte) (r : IOResult Z)
| ResSeek (r : IOResult Z)
| ResWrite (r : IOResult Z)
| ResFlush (r : IOResult unit).

Section Calls.
Context {T C : Type} `{LogContainer C} `{Io.Read T} `{Io.Seek T} `{Io.Write T}.

Definition call (p : Profile) (s : IOStatWrapper T C) (op : Op)
  : Panicking (IOStatWrapper T C * OpResult) :=
  match op with
  | OpRead buf => ' (s', b, r) <- read p s buf ;; ret (s', ResRead b r)
  | OpSeek pos => ' (s', r) <- seek p s pos ;; ret (s', ResSeek r)
  | OpWrite buf => ' (s', r) <- write p s buf ;; ret (s', ResWrite r)
  | OpFlush => ' (s', r) <- flush p s ;; ret (s', ResFlush r)
  end.

Fixpoint run_calls (p : Profile) (s : IOStatWrapper T C) (ops : list Op)
  : Panicking (IOStatWrapper T C * list OpResult) :=
  match ops with
  | [] => ret (s, [])
  | op :: ops' =>
      ' (s1, r) <- call p s op ;;
      ' (s2, rs) <- run_calls p s1 ops' ;;
      ret (s2, r :: rs)
  end.

(** The same call made on the wrapped object directly. *)
Definition inner_call (t : T) (op : Op) : T * OpResult :=
  match op with
  | OpRead buf => let '(t', b, r) := Io.read t buf in (t', ResRead b r)
  | OpSeek pos => let '(t', r) := Io.seek t pos in (t', ResSeek r)
  | OpWrite buf => let '(t', r) := Io.write t buf in (t', ResWrite r)
  | OpFlush => let '(t', r) := Io.flush t in (t', ResFlush r)
  end.

Fixpoint run_inner (t : T) (ops : list Op) : T * list OpResult :=
  match ops with
  | [] => (t, [])
  | op :: ops' =>
      let '(t1, r) := inner_call t op in
      let '(t2, rs) := run_inner t1 ops' in
      (t2, r :: rs)
  end.

End Calls.

(** [Result<A, io::Error>] with the error reduced to its kind. *)
Definition result_kind {A} (r : IOResult A) : Result A ErrorKind :=
  match r with
  | Ok a => Ok a
  | Err e => Err (kind e)
  end.

(** The record one call appends, given the outcome it returned. *)
Definition record_of (op : Op) (r : OpResult) : list IopInfoPair :=
  match op, r with
  | OpRead buf, ResRead _ res =>
      [(IopActions.Read (Z.of_nat (length buf)), IopResults.Read (result_kind res))]
  | OpSeek pos, ResSeek res =>
      [(IopActions.Seek pos, IopResults.Seek (result_kind res))]
  | OpWrite buf, ResWrite res =>
      [(IopActions.Write (Z.of_nat (length buf)), IopResults.Write (result_kind res))]
  | OpFlush, ResFlush res =>
      [(IopActions.Flush, IopResults.Flush (result_kind res))]
  | _, _ => []
  end.

Fixpoint records_of (ops : list Op) (rs : list OpResult) : list IopInfoPair :=
  match ops, rs with
  | op :: ops', r :: rs' => record_of op r ++ records_of ops' rs'
  | _, _ => []
  end.

(** The four counted operation families. *)
Inductive Family := FamRead | FamSeek | FamWrite | FamFlush.

Definition family_eqb (f g : Family) : bool :=
  match f, g with
  | FamRead, FamRead | FamSeek, FamSeek
  | FamWrite, FamWrite | FamFlush, FamFlush => true
  | _, _ => false
  end.

(** Family and success of a logged result. *)
Definition result_outcome (r : IopResults.t) : Family * bool :=
  match r with
  | IopResults.Read (Ok _) => (FamRead, true)
  | IopResults.Read (Err _) => (FamRead, false)
  | IopResults.Seek (Ok _) => (FamSeek, true)
  | IopResults.Seek (Err _) => (FamSeek, false)
  | IopResults.Write (Ok _) => (FamWrite, true)
  | IopResults.Write (Err _) => (FamWrite, false)
  | IopResults.Flush (Ok _) => (FamFlush, true)
  | IopResults.Flush (Err _) => (FamFlush, false)
  end.

(** How many records of family [f] have outcome [ok]. *)
Definition count_outcomes (f : Family) (ok : bool) (log : list IopInfoPair) : Z :=
  Z.of_nat (length (filter (fun x => let '(g, b) := result_outcome (snd x) in
                                     family_eqb f g && Bool.eqb ok b) log)).

Definition family_counter {T C} (s : IOStatWrapper T C) (f : Family)
  : SuccessFailureCounter :=
  match f with
  | FamRead => read_call_counter s
  | FamSeek => seek_call_counter s
  | FamWrite => write_call_counter s
  | FamFlush => write_flush_counter s
  end.

(** Bytes reported by the successful read (or write) records. *)
Fixpoint logged_read_bytes (log : list IopInfoPair) : Z :=
  match log with
  | [] => 0
  | (_, IopResults.Read (Ok n)) :: l => n + logged_read_bytes l
  | _ :: l => logged_read_bytes l
  end.

Fixpoint logged_write_bytes (log : list IopInfoPair) : Z :=
  match log with
  | [] => 0
  | (_, IopResults.Write (Ok n)) :: l => n + logged_write_bytes l
  | _ :: l => logged_write_bytes l
  end.

(** The cursor obtained by replaying a log from [pos]: successful reads and
    writes move it forward in [u64] arithmetic, successful seeks set it. *)
Fixpoint replay_cursor (pos : Z) (log : list IopInfoPair) : Z :=
  match log with
  | [] => pos
  | (_, r) :: l =>
      replay_cursor
        (match r with
         | IopResults.Read (Ok n) | IopResults.Write (Ok n) => (pos + n) mod 2 ^ 64
         | IopResults.Seek (Ok n) => n
         | _ => pos
         end) l
  end.

(** The counts a wrapped object reports lie in [usize]/[u64]. *)
Definition result_in_range (r : OpResult) : bool :=
  match r with
  | ResRead _ (Ok n) | ResWrite (Ok n) => in_unsigned usize_bits n
  | ResSeek (Ok n) => in_unsigned u64_bits n
  | _ => true
  end.

Definition op_well_formed (op : Op) : bool :=
  match op with
  | OpSeek pos => seekfrom_in_range pos
  | _ => true
  end.

(** How the statistics of [s'] follow from those of [s] and the records
    [items] appended in between, in [u64] arithmetic. *)
Definition stats_follow_log {T C} (s s' : IOStatWrapper T C)
  (items : list IopInfoPair) : Prop :=
  (forall f,
     success_ctr (family_counter s' f) =
       (success_ctr (family_counter s f) + count_outcomes f true items) mod 2 ^ 64 /\
     failure_ctr (family_counter s' f) =
       (failure_ctr (family_counter s f) + count_outcomes f false items) mod 2 ^ 64) /\
  read_byte_counter s' = (read_byte_counter s + logged_read_bytes items) mod 2 ^ 64 /\
  write_byte_counter s' = (write_byte_counter s + logged_write_bytes items) mod 2 ^ 64 /\
  seek_pos s' = replay_cursor (seek_pos s) items.

(** A run over the cursor of [tests/wrapper_test.rs]: read 8 bytes, seek
    to 4, write 4 bytes, a seek before the start (refused), a flush. *)
Definition sample_calls : list Op :=
  [OpRead (repeat x00 8); OpSeek (SeekFrom.Start 4);
   OpWrite [x0a; x0b; x0c; x0d]; OpSeek (SeekFrom.Current (-100)); OpFlush].

(** ** Arithmetic lemmas *)

Lemma in_unsigned_spec (w x : Z) :
  in_unsigned w x = true <-> 0 <= x < 2 ^ w.
Proof.
  unfold in_unsigned. rewrite andb_true_iff, Z.leb_le, Z.ltb_lt. tauto.
Qed.

Lemma uadd_no_overflow (p : Profile) (w a b : Z) :
  0 <= a -> 0 <= b -> a + b < 2 ^ w -> uadd p w a b = Some (a + b).
Proof.
  intros Ha Hb Hlt. unfold uadd, ret, panic.
  destruct (overflow_checks p).
  - rewrite (proj2 (Z.ltb_lt _ _) Hlt). reflexivity.
  - rewrite Z.mod_small by lia. reflexivity.
Qed.

Lemma uadd_overflow_checked (p : Profile) (w a b : Z) :
  overflow_checks p = true -> 2 ^ w <= a + b -> uadd p w a b = None.
Proof.
  intros Hp Hge. unfold uadd. rewrite Hp.
  destruct (Z.ltb_spec (a + b) (2 ^ w)); [lia | reflexivity].
Qed.

Lemma uadd_overflow_unchecked (p : Profile) (w a b : Z) :
  overflow_checks p = false -> uadd p w a b = Some ((a + b) mod 2 ^ w).
Proof. intros Hp. unfold uadd. rewrite Hp. reflexivity. Qed.

Lemma uadd_in_range (p : Profile) (w a b v : Z) :
  0 <= w -> 0 <= a -> 0 <= b -> uadd p w a b = Some v -> 0 <= v < 2 ^ w.
Proof.
  intros Hw Ha Hb. unfold uadd, ret, panic.
  assert (0 < 2 ^ w) by (apply Z.pow_pos_nonneg; lia).
  destruct (overflow_checks p).
  - destruct (Z.ltb_spec (a + b) (2 ^ w)); intros E; inversion E; lia.
  - intros E; inversion E; subst. apply Z.mod_pos_bound. lia.
Qed.

Lemma usub_no_overflow (p : Profile) (w a b : Z) :
  0 <= a - b < 2 ^ w -> usub p w a b = Some (a - b).
Proof.
  intros Hr. unfold usub, ret, panic.
  destruct (overflow_checks p).
  - rewrite (proj2 (Z.leb_le _ _) (proj1 Hr)). reflexivity.
  - rewrite Z.mod_small by lia. reflexivity.
Qed.

Lemma two_pow_64 : 2 ^ 64 = 18446744073709551616.
Proof. reflexivity. Qed.

Lemma two_pow_63 : 2 ^ 63 = 9223372036854775808.
Proof. reflexivity. Qed.

(** [abs_sign_tuple] on every [i64]. *)
Lemma abs_sign_tuple_i64 (p : Profile) (d : Z) :
  in_i64 d = true ->
  abs_sign_tuple p d =
    Some (if 0 <? d then Positive d
          else if d =? 0 then Zero
          else Negative (- d)).
Proof.
  unfold in_i64, i64_min, i64_max. rewrite andb_true_iff, !Z.leb_le.
  intros Hd. unfold abs_sign_tuple, i64_signum, i64_abs, u64_from_i64,
    unwrap, ret, panic, i64_min, i64_max.
  destruct (Z.lt_trichotomy d 0) as [Hneg | [Hz | Hpos]].
  - rewrite (Z.sgn_neg d Hneg). simpl Z.eqb.
    destruct (Z.ltb_spec 0 d); [lia |]. destruct (Z.eqb_spec d 0); [lia |].
    destruct (Z.eqb_spec d (-9223372036854775808)) as [Hmin | Hmin].
    + simpl. rewrite uadd_no_overflow by (unfold u64_bits; rewrite ?two_pow_64, ?two_pow_63; lia).
      subst d. reflexivity.
    + destruct (Z.ltb_spec d 0); [| lia].
      destruct (Z.leb_spec (- d) (2 ^ 63 - 1)); [| rewrite two_pow_63 in *; lia].
      destruct (Z.leb_spec 0 (- d)); [reflexivity | lia].
  - subst d. reflexivity.
  - rewrite (Z.sgn_pos d Hpos). simpl Z.eqb.
    destruct (Z.ltb_spec d 0); [lia |].
    destruct (Z.leb_spec 0 d); [| lia].
    destruct (Z.ltb_spec 0 d); [reflexivity | lia].
Qed.

(** ** The test scenario *)

Example basic_counts_dev :
  match basic_counts_scenario dev_profile with
  | Some w =>
      read_call_counter w = mkSFC 1 0 /\ read_byte_counter w = 8 /\
      seek_call_counter w = mkSFC 1 0 /\ write_call_counter w = mkSFC 1 0 /\
      write_byte_counter w = 4 /\ seek_pos w = 8 /\
      snd (stream_position w) = Ok (seek_pos w) /\ length (iop_log w) = 3%nat
  | None => False
  end.
Proof. vm_compute. repeat split. Qed.

(** ** Lemmas on the wrapper's calls *)

Ltac unpack_ranges :=
  repeat match goal with
  | H : wrapper_in_range _ = true |- _ => unfold wrapper_in_range in H
  | H : sfc_in_range _ _ = true |- _ => unfold sfc_in_range in H
  | H : _ && _ = true |- _ => apply andb_true_iff in H; destruct H
  | H : in_unsigned _ _ = true |- _ => apply in_unsigned_spec in H
  end;
  unfold u64_bits, usize_bits in *.

Section WrapperLemmas.
Context {T C : Type} `{LogContainer C}.

Lemma read_ok_step `{Io.Read T} (p : Profile) (s : IOStatWrapper T C)
  (buf buf' : list byte) (t : T) (n : Z) :
  wrapper_in_range s = true ->
  Io.read (inner_io s) buf = (t, buf', Ok n) ->
  0 <= n ->
  success_ctr (read_call_counter s) + 1 < 2 ^ 64 ->
  read_byte_counter s + n < 2 ^ 64 ->
  seek_pos s + n < 2 ^ 64 ->
  read p s buf =
    Some ({| inner_io := t;
             iop_log := log_extend (iop_log s)
               [(IopActions.Read (Z.of_nat (length buf)), IopResults.Read (Ok n))];
             read_call_counter :=
               mkSFC (success_ctr (read_call_counter s) + 1)
                     (failure_ctr (read_call_counter s));
             read_byte_counter := read_byte_counter s + n;
             seek_call_counter := seek_call_counter s;
             seek_pos := seek_pos s + n;
             write_call_counter := write_call_counter s;
             write_flush_counter := write_flush_counter s;
             write_byte_counter := write_byte_counter s |}, buf', Ok n).
Proof.
  intros Hr Hin Hn H1 H2 H3. unpack_ranges.
  unfold read. rewrite Hin. unfold increment_success.
  rewrite uadd_no_overflow by (unfold u64_bits; lia).
  rewrite uadd_no_overflow by (unfold usize_bits; lia).
  unfold unwrap, u64_try_from_usize.
  replace (in_unsigned u64_bits n) with true
    by (symmetry; apply in_unsigned_spec; unfold u64_bits; lia).
  rewrite uadd_no_overflow by (unfold u64_bits; lia).
  reflexivity.
Qed.

Lemma read_err_step `{Io.Read T} (p : Profile) (s : IOStatWrapper T C)
  (buf buf' : list byte) (t : T) (e : io_error) :
  wrapper_in_range s = true ->
  Io.read (inner_io s) buf = (t, buf', Err e) ->
  failure_ctr (read_call_counter s) + 1 < 2 ^ 64 ->
  read p s buf =
    Some ({| inner_io := t;
             iop_log := log_extend (iop_log s)
               [(IopActions.Read (Z.of_nat (length buf)),
                 IopResults.Read (Err (kind e)))];
             read_call_counter :=
               mkSFC (success_ctr (read_call_counter s))
                     (failure_ctr (read_call_counter s) + 1);
             read_byte_counter := read_byte_counter s;
             seek_call_counter := seek_call_counter s;
             seek_pos := seek_pos s;
             write_call_counter := write_call_counter s;
             write_flush_counter := write_flush_counter s;
             write_byte_counter := write_byte_counter s |}, buf', Err e).
Proof.
  intros Hr Hin H1. unpack_ranges.
  unfold read. rewrite Hin. unfold increment_failure.
  rewrite uadd_no_overflow by (unfold u64_bits; lia).
  reflexivity.
Qed.

(** Whatever [read] returns, its result is the wrapped object's. *)
Lemma read_returns_inner `{Io.Read T} (p : Profile) (s s' : IOStatWrapper T C)
  (buf b : list byte) (r : IOResult Z) :
  read p s buf = Some (s', b, r) ->
  Io.read (inner_io s) buf = (inner_io s', b, r).
Proof.
  unfold read. destruct (Io.read (inner_io s) buf) as [[t b0] [n | e]].
  - unfold increment_success.
    destruct (uadd p u64_bits _ 1); [| discriminate].
    destruct (uadd p usize_bits _ n); [| discriminate].
    destruct (unwrap _); [| discriminate].
    destruct (uadd p u64_bits (seek_pos s) _); [| discriminate].
    intros E. inversion E. reflexivity.
  - unfold increment_failure.
    destruct (uadd p u64_bits _ 1); [| discriminate].
    intros E. inversion E. reflexivity.
Qed.

(** A [read] that returns keeps every field in range. *)
Lemma read_in_range `{Io.Read T} (p : Profile) (s s' : IOStatWrapper T C)
  (buf b : list byte) (r : IOResult Z) :
  wrapper_in_range s = true ->
  (forall n, r = Ok n -> 0 <= n) ->
  read p s buf = Some (s', b, r) ->
  wrapper_in_range s' = true.
Proof.
  intros Hr Hn. unfold read.
  destruct (Io.read (inner_io s) buf) as [[t b0] [n | e]] eqn:Hin.
  - unfold increment_success, unwrap, u64_try_from_usize.
    destruct (uadd p u64_bits _ 1) as [rc |] eqn:E1; [| discriminate].
    destruct (uadd p usize_bits _ n) as [rb |] eqn:E2; [| discriminate].
    destruct (in_unsigned u64_bits n) eqn:E3; [| discriminate].
    destruct (uadd p u64_bits (seek_pos s) n) as [sp |] eqn:E4; [| discriminate].
    intros E. inversion E; subst. clear E.
    assert (0 <= n) by (apply Hn; reflexivity).
    unpack_ranges.
    apply uadd_in_range in E1; [| lia | lia | lia].
    apply uadd_in_range in E2; [| lia | lia | lia].
    apply uadd_in_range in E4; [| lia | lia | lia].
    unfold wrapper_in_range, sfc_in_range, extend_log; simpl.
    rewrite !(proj2 (in_unsigned_spec _ _)) by (unfold u64_bits, usize_bits; lia).
    reflexivity.
  - unfold increment_failure.
    destruct (uadd p u64_bits _ 1) as [fc |] eqn:E1; [| discriminate].
    intros E. inversion E; subst. clear E.
    unpack_ranges.
    apply uadd_in_range in E1; [| lia | lia | lia].
    unfold wrapper_in_range, sfc_in_range, extend_log; simpl.
    rewrite !(proj2 (in_unsigned_spec _ _)) by (unfold u64_bits, usize_bits; lia).
    reflexivity.
Qed.

End WrapperLemmas.

Section WrapperLemmas2.
Context {T C : Type} `{LogContainer C}.

Lemma read_ok_advances `{Io.Read T} (p : Profile) (s s' : IOStatWrapper T C)
  (buf b : list byte) (n : Z) :
  wrapper_in_range s = true ->
  0 <= n ->
  read_byte_counter s + n < 2 ^ 64 ->
  seek_pos s + n < 2 ^ 64 ->
  read p s buf = Some (s', b, Ok n) ->
  read_byte_counter s' = read_byte_counter s + n /\
  seek_pos s' = seek_pos s + n.
Proof.
  intros Hr Hn H2 H3. unfold read.
  destruct (Io.read (inner_io s) buf) as [[t b0] [n' | e]] eqn:Hin.
  - unfold increment_success, unwrap, u64_try_from_usize.
    destruct (uadd p u64_bits _ 1) as [rc |] eqn:E1; [| discriminate].
    destruct (uadd p usize_bits _ n') as [rb |] eqn:E2; [| discriminate].
    destruct (in_unsigned u64_bits n') eqn:E3; [| discriminate].
    destruct (uadd p u64_bits (seek_pos s) n') as [sp |] eqn:E4; [| discriminate].
    intros E. inversion E; subst. clear E. unpack_ranges.
    rewrite uadd_no_overflow in E2 by (unfold usize_bits; lia).
    rewrite uadd_no_overflow in E4 by (unfold u64_bits; lia).
    inversion E2; inversion E4; subst. simpl. split; reflexivity.
  - unfold increment_failure.
    destruct (uadd p u64_bits _ 1); [| discriminate].
    intros E. inversion E.
Qed.

Lemma reads_total `{Io.Read T} (p : Profile) (bufs : list (list byte)) :
  forall (s s' : IOStatWrapper T C) (rs : list (IOResult Z)),
  wrapper_in_range s = true ->
  reads p s bufs = Some (s', rs) ->
  all_ok_usize rs ->
  read_byte_counter s + ok_total rs < 2 ^ 64 ->
  seek_pos s + ok_total rs < 2 ^ 64 ->
  read_byte_counter s' = read_byte_counter s + ok_total rs /\
  seek_pos s' = seek_pos s + ok_total rs.
Proof.
  induction bufs as [| b bs IH]; intros s s' rs Hr Hreads Hok H2 H3; simpl in Hreads.
  - inversion Hreads; subst. simpl. lia.
  - destruct (read p s b) as [[[s1 b1] r] |] eqn:Hread; [| discriminate].
    destruct (reads p s1 bs) as [[s2 rs'] |] eqn:Hrest; [| discriminate].
    inversion Hreads; subst. clear Hreads.
    inversion Hok as [| r' rs'' [n [Hn Hnr]] Hok']; subst.
    simpl in H2, H3 |- *.
    assert (Hsum : 0 <= ok_total rs').
    { clear -Hok'. induction Hok' as [| x l [m [-> Hm]] _ IHl]; simpl; lia. }
    destruct (read_ok_advances p s s1 b b1 n Hr ltac:(lia) ltac:(lia) ltac:(lia)
                Hread) as [A1 A2].
    assert (Hr1 : wrapper_in_range s1 = true).
    { apply (read_in_range p s s1 b b1 (Ok n) Hr); [| exact Hread].
      intros m E. inversion E; lia. }
    destruct (IH s1 s' rs' Hr1 Hrest Hok' ltac:(lia) ltac:(lia)) as [B1 B2].
    split; lia.
Qed.

Lemma write_ok_step `{Io.Write T} (p : Profile) (s : IOStatWrapper T C)
  (buf : list byte) (t : T) (n : Z) :
  wrapper_in_range s = true ->
  Io.write (inner_io s) buf = (t, Ok n) ->
  0 <= n ->
  success_ctr (write_call_counter s) + 1 < 2 ^ 64 ->
  write_byte_counter s + n < 2 ^ 64 ->
  seek_pos s + n < 2 ^ 64 ->
  write p s buf =
    Some ({| inner_io := t;
             iop_log := log_extend (iop_log s)
               [(IopActions.Write (Z.of_nat (length buf)), IopResults.Write (Ok n))];
             read_call_counter := read_call_counter s;
             read_byte_counter := read_byte_counter s;
             seek_call_counter := seek_call_counter s;
             seek_pos := seek_pos s + n;
             write_call_counter :=
               mkSFC (success_ctr (write_call_counter s) + 1)
                     (failure_ctr (write_call_counter s));
             write_flush_counter := write_flush_counter s;
             write_byte_counter := write_byte_counter s + n |}, Ok n).
Proof.
  intros Hr Hin Hn H1 H2 H3. unpack_ranges.
  unfold write. rewrite Hin. unfold increment_success.
  rewrite uadd_no_overflow by (unfold u64_bits; lia).
  rewrite uadd_no_overflow by (unfold usize_bits; lia).
  unfold unwrap, u64_try_from_usize.
  replace (in_unsigned u64_bits n) with true
    by (symmetry; apply in_unsigned_spec; unfold u64_bits; lia).
  rewrite uadd_no_overflow by (unfold u64_bits; lia).
  reflexivity.
Qed.

Lemma write_err_step `{Io.Write T} (p : Profile) (s : IOStatWrapper T C)
  (buf : list byte) (t : T) (e : io_error) :
  wrapper_in_range s = true ->
  Io.write (inner_io s) buf = (t, Err e) ->
  failure_ctr (write_call_counter s) + 1 < 2 ^ 64 ->
  write p s buf =
    Some ({| inner_io := t;
             iop_log := log_extend (iop_log s)
               [(IopActions.Write (Z.of_nat (length buf)),
                 IopResults.Write (Err (kind e)))];
             read_call_counter := read_call_counter s;
             read_byte_counter := read_byte_counter s;
             seek_call_counter := seek_call_counter s;
             seek_pos := seek_pos s;
             write_call_counter :=
               mkSFC (success_ctr (write_call_counter s))
                     (failure_ctr (write_call_counter s) + 1);
             write_flush_counter := write_flush_counter s;
             write_byte_counter := write_byte_counter s |}, Err e).
Proof.
  intros Hr Hin H1. unpack_ranges.
  unfold write. rewrite Hin. unfold increment_failure.
  rewrite uadd_no_overflow by (unfold u64_bits; lia).
  reflexivity.
Qed.

Lemma write_returns_inner `{Io.Write T} (p : Profile) (s s' : IOStatWrapper T C)
  (buf : list byte) (r : IOResult Z) :
  write p s buf = Some (s', r) ->
  Io.write (inner_io s) buf = (inner_io s', r).
Proof.
  unfold write. destruct (Io.write (inner_io s) buf) as [t [n | e]].
  - unfold increment_success.
    destruct (uadd p u64_bits _ 1); [| discriminate].
    destruct (uadd p usize_bits _ n); [| discriminate].
    destruct (unwrap _); [| discriminate].
    destruct (uadd p u64_bits (seek_pos s) _); [| discriminate].
    intros E. inversion E. reflexivity.
  - unfold increment_failure.
    destruct (uadd p u64_bits _ 1); [| discriminate].
    intros E. inversion E. reflexivity.
Qed.

Lemma flush_returns_inner `{Io.Write T} (p : Profile) (s s' : IOStatWrapper T C)
  (r : IOResult unit) :
  flush p s = Some (s', r) ->
  Io.flush (inner_io s) = (inner_io s', r).
Proof.
  unfold flush. destruct (Io.flush (inner_io s)) as [t [[] | e]].
  - unfold increment_success.
    destruct (uadd p u64_bits _ 1); [| discriminate].
    intros E. inversion E. reflexivity.
  - unfold increment_failure.
    destruct (uadd p u64_bits _ 1); [| discriminate].
    intros E. inversion E. reflexivity.
Qed.

Lemma seek_returns_inner `{Io.Seek T} (p : Profile) (s s' : IOStatWrapper T C)
  (pos : SeekFrom.t) (r : IOResult Z) :
  seek p s pos = Some (s', r) ->
  Io.seek (inner_io s) pos = (inner_io s', r).
Proof.
  unfold seek. destruct (Io.seek (inner_io s) pos) as [t [n | e]].
  - unfold increment_success.
    destruct (uadd p u64_bits _ 1); [| discriminate].
    destruct (match pos with
              | SeekFrom.Current offset => seek_current_check p (seek_pos s) offset n
              | _ => ret tt end); [| discriminate].
    intros E. inversion E. reflexivity.
  - unfold increment_failure.
    destruct (uadd p u64_bits _ 1); [| discriminate].
    intros E. inversion E. reflexivity.
Qed.

End WrapperLemmas2.

Lemma seek_current_check_no_debug (p : Profile) (old d n : Z) :
  debug_assertions p = false -> in_i64 d = true ->
  seek_current_check p old d n = Some tt.
Proof.
  intros Hp Hd. unfold seek_current_check.
  rewrite (abs_sign_tuple_i64 p d Hd).
  unfold debug_assert_eq. rewrite Hp.
  destruct (0 <? d); [| destruct (d =? 0)]; reflexivity.
Qed.

Lemma seek_current_check_debug (p : Profile) (old d n : Z) :
  debug_assertions p = true -> in_i64 d = true ->
  0 <= old -> 0 <= old + d < 2 ^ 64 ->
  (seek_current_check p old d n = Some tt <-> n = old + d).
Proof.
  intros Hp Hd Hold Hr. unfold seek_current_check.
  rewrite (abs_sign_tuple_i64 p d Hd).
  unfold debug_assert_eq, assert_true, ret, panic. rewrite Hp.
  destruct (Z.ltb_spec 0 d).
  - rewrite uadd_no_overflow by (unfold u64_bits; lia).
    destruct (Z.eqb_spec (old + d) n); split; intros E; try reflexivity; try discriminate; lia.
  - destruct (Z.eqb_spec d 0).
    + subst d. rewrite Z.add_0_r.
      destruct (Z.eqb_spec old n); split; intros E; try reflexivity; try discriminate; lia.
    + rewrite usub_no_overflow by (unfold u64_bits; lia).
      replace (old - - d) with (old + d) by lia.
      destruct (Z.eqb_spec (old + d) n); split; intros E; try reflexivity; try discriminate; lia.
Qed.

Section SeekLemmas.
Context {T C : Type} `{LogContainer C} `{Io.Seek T}.

Lemma seek_ok_step (p : Profile) (s : IOStatWrapper T C) (pos : SeekFrom.t)
  (t : T) (n : Z) :
  wrapper_in_range s = true ->
  Io.seek (inner_io s) pos = (t, Ok n) ->
  success_ctr (seek_call_counter s) + 1 < 2 ^ 64 ->
  seek p s pos =
    match match pos with
          | SeekFrom.Current d => seek_current_check p (seek_pos s) d n
          | _ => ret tt
          end with
    | Some _ =>
        Some ({| inner_io := t;
                 iop_log := log_extend (iop_log s)
                   [(IopActions.Seek pos, IopResults.Seek (Ok n))];
                 read_call_counter := read_call_counter s;
                 read_byte_counter := read_byte_counter s;
                 seek_call_counter :=
                   mkSFC (success_ctr (seek_call_counter s) + 1)
                         (failure_ctr (seek_call_counter s));
                 seek_pos := n;
                 write_call_counter := write_call_counter s;
                 write_flush_counter := write_flush_counter s;
                 write_byte_counter := write_byte_counter s |}, Ok n)
    | None => None
    end.
Proof.
  intros Hr Hin H1. unpack_ranges.
  unfold seek. rewrite Hin. unfold increment_success.
  rewrite uadd_no_overflow by (unfold u64_bits; lia).
  destruct (match pos with
            | SeekFrom.Current d => seek_current_check p (seek_pos s) d n
            | _ => ret tt end); reflexivity.
Qed.

Lemma seek_err_step (p : Profile) (s : IOStatWrapper T C) (pos : SeekFrom.t)
  (t : T) (e : io_error) :
  wrapper_in_range s = true ->
  Io.seek (inner_io s) pos = (t, Err e) ->
  failure_ctr (seek_call_counter s) + 1 < 2 ^ 64 ->
  seek p s pos =
    Some ({| inner_io := t;
             iop_log := log_extend (iop_log s)
               [(IopActions.Seek pos, IopResults.Seek (Err (kind e)))];
             read_call_counter := read_call_counter s;
             read_byte_counter := read_byte_counter s;
             seek_call_counter :=
               mkSFC (success_ctr (seek_call_counter s))
                     (failure_ctr (seek_call_counter s) + 1);
             seek_pos := seek_pos s;
             write_call_counter := write_call_counter s;
             write_flush_counter := write_flush_counter s;
             write_byte_counter := write_byte_counter s |}, Err e).
Proof.
  intros Hr Hin H1. unpack_ranges.
  unfold seek. rewrite Hin. unfold increment_failure.
  rewrite uadd_no_overflow by (unfold u64_bits; lia).
  reflexivity.
Qed.

End SeekLemmas.

Lemma uadd_mod (p : Profile) (w a b v : Z) :
  0 <= w -> 0 <= a -> 0 <= b -> uadd p w a b = Some v -> v = (a + b) mod 2 ^ w.
Proof.
  intros Hw Ha Hb. unfold uadd, ret, panic.
  assert (0 < 2 ^ w) by (apply Z.pow_pos_nonneg; lia).
  destruct (overflow_checks p).
  - destruct (Z.ltb_spec (a + b) (2 ^ w)); intros E; inversion E; subst.
    rewrite Z.mod_small; lia.
  - intros E; inversion E; reflexivity.
Qed.

Lemma uadd_checked_value (p : Profile) (w a b v : Z) :
  overflow_checks p = true -> uadd p w a b = Some v -> v = a + b.
Proof.
  intros Hp. unfold uadd, ret, panic. rewrite Hp.
  destruct (a + b <? 2 ^ w); intros E; inversion E; reflexivity.
Qed.

(** ** Overflow behaviour of the wrapper's calls *)

Section OverflowLemmas.
Context {T C : Type} `{LogContainer C}.

Lemma read_ok_checked_panics `{Io.Read T} (p : Profile) (s : IOStatWrapper T C)
  (buf buf' : list byte) (t : T) (n : Z) :
  overflow_checks p = true ->
  wrapper_in_range s = true ->
  Io.read (inner_io s) buf = (t, buf', Ok n) ->
  0 <= n < 2 ^ 64 ->
  (2 ^ 64 <= success_ctr (read_call_counter s) + 1 \/
   2 ^ 64 <= read_byte_counter s + n \/
   2 ^ 64 <= seek_pos s + n) ->
  read p s buf = None.
Proof.
  intros Hp Hr Hin Hn Hov.
  unfold read. rewrite Hin. unfold increment_success, unwrap, u64_try_from_usize.
  replace (in_unsigned u64_bits n) with true
    by (symmetry; apply in_unsigned_spec; unfold u64_bits; lia).
  unpack_ranges. unfold uadd. rewrite Hp.
  destruct (Z.ltb_spec (success_ctr (read_call_counter s) + 1) (2 ^ 64));
    [| reflexivity].
  destruct (Z.ltb_spec (read_byte_counter s + n) (2 ^ 64)); [| reflexivity].
  destruct (Z.ltb_spec (seek_pos s + n) (2 ^ 64)); [| reflexivity].
  exfalso. lia.
Qed.

Lemma read_err_checked_panics `{Io.Read T} (p : Profile) (s : IOStatWrapper T C)
  (buf buf' : list byte) (t : T) (e : io_error) :
  overflow_checks p = true ->
  Io.read (inner_io s) buf = (t, buf', Err e) ->
  2 ^ 64 <= failure_ctr (read_call_counter s) + 1 ->
  read p s buf = None.
Proof.
  intros Hp Hin Hov.
  unfold read. rewrite Hin. unfold increment_failure.
  rewrite uadd_overflow_checked by first [exact Hp | unfold u64_bits; lia].
  reflexivity.
Qed.

Lemma read_ok_unchecked `{Io.Read T} (p : Profile) (s : IOStatWrapper T C)
  (buf buf' : list byte) (t : T) (n : Z) :
  overflow_checks p = false ->
  Io.read (inner_io s) buf = (t, buf', Ok n) ->
  0 <= n < 2 ^ 64 ->
  read p s buf =
    Some ({| inner_io := t;
             iop_log := log_extend (iop_log s)
               [(IopActions.Read (Z.of_nat (length buf)), IopResults.Read (Ok n))];
             read_call_counter :=
               mkSFC ((success_ctr (read_call_counter s) + 1) mod 2 ^ 64)
                     (failure_ctr (read_call_counter s));
             read_byte_counter := (read_byte_counter s + n) mod 2 ^ 64;
             seek_call_counter := seek_call_counter s;
             seek_pos := (seek_pos s + n) mod 2 ^ 64;
             write_call_counter := write_call_counter s;
             write_flush_counter := write_flush_counter s;
             write_byte_counter := write_byte_counter s |}, buf', Ok n).
Proof.
  intros Hp Hin Hn.
  unfold read. rewrite Hin. unfold increment_success, unwrap, u64_try_from_usize.
  replace (in_unsigned u64_bits n) with true
    by (symmetry; apply in_unsigned_spec; unfold u64_bits; lia).
  rewrite !uadd_overflow_unchecked by exact Hp.
  reflexivity.
Qed.

Lemma read_err_unchecked `{Io.Read T} (p : Profile) (s : IOStatWrapper T C)
  (buf buf' : list byte) (t : T) (e : io_error) :
  overflow_checks p = false ->
  Io.read (inner_io s) buf = (t, buf', Err e) ->
  read p s buf =
    Some ({| inner_io := t;
             iop_log := log_extend (iop_log s)
               [(IopActions.Read (Z.of_nat (length buf)),
                 IopResults.Read (Err (kind e)))];
             read_call_counter :=
               mkSFC (success_ctr (read_call_counter s))
                     ((failure_ctr (read_call_counter s) + 1) mod 2 ^ 64);
             read_byte_counter := read_byte_counter s;
             seek_call_counter := seek_call_counter s;
             seek_pos := seek_pos s;
             write_call_counter := write_call_counter s;
             write_flush_counter := write_flush_counter s;
             write_byte_counter := write_byte_counter s |}, buf', Err e).
Proof.
  intros Hp Hin.
  unfold read. rewrite Hin. unfold increment_failure.
  rewrite uadd_overflow_unchecked by exact Hp.
  reflexivity.
Qed.

Lemma write_ok_checked_panics `{Io.Write T} (p : Profile) (s : IOStatWrapper T C)
  (buf : list byte) (t : T) (n : Z) :
  overflow_checks p = true ->
  wrapper_in_range s = true ->
  Io.write (inner_io s) buf = (t, Ok n) ->
  0 <= n < 2 ^ 64 ->
  (2 ^ 64 <= success_ctr (write_call_counter s) + 1 \/
   2 ^ 64 <= write_byte_counter s + n \/
   2 ^ 64 <= seek_pos s + n) ->
  write p s buf = None.
Proof.
  intros Hp Hr Hin Hn Hov.
  unfold write. rewrite Hin. unfold increment_success, unwrap, u64_try_from_usize.
  replace (in_unsigned u64_bits n) with true
    by (symmetry; apply in_unsigned_spec; unfold u64_bits; lia).
  unpack_ranges. unfold uadd. rewrite Hp.
  destruct (Z.ltb_spec (success_ctr (write_call_counter s) + 1) (2 ^ 64));
    [| reflexivity].
  destruct (Z.ltb_spec (write_byte_counter s + n) (2 ^ 64)); [| reflexivity].
  destruct (Z.ltb_spec (seek_pos s + n) (2 ^ 64)); [| reflexivity].
  exfalso. lia.
Qed.

Lemma write_err_checked_panics `{Io.Write T} (p : Profile) (s : IOStatWrapper T C)
  (buf : list byte) (t : T) (e : io_error) :
  overflow_checks p = true ->
  Io.write (inner_io s) buf = (t, Err e) ->
  2 ^ 64 <= failure_ctr (write_call_counter s) + 1 ->
  write p s buf = None.
Proof.
  intros Hp Hin Hov.
  unfold write. rewrite Hin. unfold increment_failure.
  rewrite uadd_overflow_checked by first [exact Hp | unfold u64_bits; lia].
  reflexivity.
Qed.

Lemma write_ok_unchecked `{Io.Write T} (p : Profile) (s : IOStatWrapper T C)
  (buf : list byte) (t : T) (n : Z) :
  overflow_checks p = false ->
  Io.write (inner_io s) buf = (t, Ok n) ->
  0 <= n < 2 ^ 64 ->
  write p s buf =
    Some ({| inner_io := t;
             iop_log := log_extend (iop_log s)
               [(IopActions.Write (Z.of_nat (length buf)), IopResults.Write (Ok n))];
             read_call_counter := read_call_counter s;
             read_byte_counter := read_byte_counter s;
             seek_call_counter := seek_call_counter s;
             seek_pos := (seek_pos s + n) mod 2 ^ 64;
             write_call_counter :=
               mkSFC ((success_ctr (write_call_counter s) + 1) mod 2 ^ 64)
                     (failure_ctr (write_call_counter s));
             write_flush_counter := write_flush_counter s;
             write_byte_counter := (write_byte_counter s + n) mod 2 ^ 64 |}, Ok n).
Proof.
  intros Hp Hin Hn.
  unfold write. rewrite Hin. unfold increment_success, unwrap, u64_try_from_usize.
  replace (in_unsigned u64_bits n) with true
    by (symmetry; apply in_unsigned_spec; unfold u64_bits; lia).
  rewrite !uadd_overflow_unchecked by exact Hp.
  reflexivity.
Qed.

Lemma write_err_unchecked `{Io.Write T} (p : Profile) (s : IOStatWrapper T C)
  (buf : list byte) (t : T) (e : io_error) :
  overflow_checks p = false ->
  Io.write (inner_io s) buf = (t, Err e) ->
  write p s buf =
    Some ({| inner_io := t;
             iop_log := log_extend (iop_log s)
               [(IopActions.Write (Z.of_nat (length buf)),
                 IopResults.Write (Err (kind e)))];
             read_call_counter := read_call_counter s;
             read_byte_counter := read_byte_counter s;
             seek_call_counter := seek_call_counter s;
             seek_pos := seek_pos s;
             write_call_counter :=
               mkSFC (success_ctr (write_call_counter s))
                     ((failure_ctr (write_call_counter s) + 1) mod 2 ^ 64);
             write_flush_counter := write_flush_counter s;
             write_byte_counter := write_byte_counter s |}, Err e).
Proof.
  intros Hp Hin.
  unfold write. rewrite Hin. unfold increment_failure.
  rewrite uadd_overflow_unchecked by exact Hp.
  reflexivity.
Qed.

End OverflowLemmas.

(** The debug check of a [Current(d)] seek on an in-range cursor accepts
    exactly the position [old + d] computed with the build's [u64] addition
    or subtraction: the exact value with overflow checks, the value modulo
    [2^64] without them. *)
Lemma seek_current_check_debug_wrap (p : Profile) (old d n : Z) :
  debug_assertions p = true -> in_i64 d = true ->
  0 <= old < 2 ^ 64 -> 0 <= n < 2 ^ 64 ->
  (seek_current_check p old d n = Some tt <->
   n = if overflow_checks p then old + d else (old + d) mod 2 ^ 64).
Proof.
  intros Hp Hd Hold Hn. unfold seek_current_check.
  rewrite (abs_sign_tuple_i64 p d Hd).
  unfold debug_assert_eq, assert_true, ret, panic. rewrite Hp.
  unfold uadd, usub, u64_bits, ret.
  destruct (overflow_checks p), (Z.ltb_spec 0 d); cbv beta iota;
    [destruct (Z.ltb_spec (old + d) (2 ^ 64)) |
     destruct (Z.eqb_spec d 0);
       [subst d; rewrite Z.add_0_r |
        replace (old - - d) with (old + d) by lia;
        destruct (Z.leb_spec 0 (old + d))] |
     |
     destruct (Z.eqb_spec d 0);
       [subst d; rewrite Z.add_0_r, (Z.mod_small old) by lia |
        replace (old - - d) with (old + d) by lia]];
    cbv beta iota;
    first
      [ match goal with
        | |- context [?a =? ?b] => destruct (Z.eqb_spec a b)
        end;
        split; intros E; try reflexivity; try discriminate; lia
      | split; intros E; [discriminate | lia] ].
Qed.

Section SeekOverflowLemmas.
Context {T C : Type} `{LogContainer C} `{Io.Seek T}.

(** With debug assertions on, a [Current(d)] seek answered with a position
    the check rejects panics, whatever the counters hold. *)
Lemma seek_current_mismatch_panics (p : Profile) (s : IOStatWrapper T C)
  (d : Z) (t : T) (n : Z) :
  debug_assertions p = true ->
  wrapper_in_range s = true ->
  in_i64 d = true ->
  Io.seek (inner_io s) (SeekFrom.Current d) = (t, Ok n) ->
  0 <= n < 2 ^ 64 ->
  (if overflow_checks p then n <> seek_pos s + d
   else n <> (seek_pos s + d) mod 2 ^ 64) ->
  seek p s (SeekFrom.Current d) = None.
Proof.
  intros Hp Hr Hd Hin Hn Hne.
  assert (Hpos : 0 <= seek_pos s < 2 ^ 64) by (unpack_ranges; lia).
  unfold seek. cbv zeta. rewrite Hin. unfold increment_success.
  destruct (uadd p u64_bits (success_ctr (seek_call_counter s)) 1);
    [| reflexivity].
  cbv beta iota.
  destruct (seek_current_check p (seek_pos s) d n) as [[] |] eqn:E;
    [| reflexivity].
  apply (seek_current_check_debug_wrap p (seek_pos s) d n Hp Hd Hpos Hn) in E.
  destruct (overflow_checks p); contradiction.
Qed.

(** Whenever a seek answered with [Ok(n)] returns, it reports [Ok(n)],
    stores [n] as the cursor, adds one success with the build's [u64]
    addition and appends one record. *)
Lemma seek_ok_returns (p : Profile) (s : IOStatWrapper T C) (pos : SeekFrom.t)
  (t : T) (n : Z) (s' : IOStatWrapper T C) (r : IOResult Z) :
  wrapper_in_range s = true ->
  Io.seek (inner_io s) pos = (t, Ok n) ->
  seek p s pos = Some (s', r) ->
  r = Ok n /\ seek_pos s' = n /\
  seek_call_counter s' =
    mkSFC ((success_ctr (seek_call_counter s) + 1) mod 2 ^ 64)
          (failure_ctr (seek_call_counter s)) /\
  (overflow_checks p = true ->
   success_ctr (seek_call_counter s') = success_ctr (seek_call_counter s) + 1) /\
  iop_log s' = log_extend (iop_log s)
    [(IopActions.Seek pos, IopResults.Seek (Ok n))].
Proof.
  intros Hr Hin.
  assert (Hsc : 0 <= success_ctr (seek_call_counter s)) by (unpack_ranges; lia).
  unfold seek. cbv zeta. rewrite Hin. unfold increment_success.
  destruct (uadd p u64_bits (success_ctr (seek_call_counter s)) 1) as [v |] eqn:U;
    [| discriminate].
  destruct (match pos with
            | SeekFrom.Current offset => seek_current_check p (seek_pos s) offset n
            | _ => ret tt end); [| discriminate].
  intros E. inversion E; subst; clear E.
  pose proof (uadd_mod p u64_bits _ 1 v ltac:(unfold u64_bits; lia) Hsc
                ltac:(lia) U) as Hm.
  unfold u64_bits in Hm.
  split; [reflexivity |]. split; [reflexivity |]. simpl.
  split; [rewrite Hm; reflexivity |]. split; [| reflexivity].
  intros Hp. exact (uadd_checked_value p _ _ _ v Hp U).
Qed.

End SeekOverflowLemmas.

(** With overflow checks, a sequence of counter operations from an in-range
    counter panics exactly when one of the two running sums reaches [2^w]. *)
Lemma run_counter_ops_checked_none (p : Profile) (w : Z) (ops : list CounterOp) :
  overflow_checks p = true -> 0 <= w ->
  forallb (op_in_range w) ops = true ->
  forall c, sfc_in_range w c = true ->
  (run_counter_ops p w c ops = None <->
   2 ^ w <= success_ctr c + successes_added ops \/
   2 ^ w <= failure_ctr c + failures_added ops).
Proof.
  intros Hp Hw.
  induction ops as [| op ops IH]; intros Hops c Hc;
    unfold sfc_in_range in Hc; apply andb_true_iff in Hc;
    destruct Hc as [Hs Hf]; apply in_unsigned_spec in Hs, Hf.
  - simpl. split; [discriminate | lia].
  - simpl in Hops. apply andb_true_iff in Hops. destruct Hops as [Hop Hops].
    assert (Hnn : 0 <= successes_added ops /\ 0 <= failures_added ops).
    { clear IH. induction ops as [| o os IHo]; cbn [successes_added failures_added];
        [lia |].
      simpl in Hops. apply andb_true_iff in Hops. destruct Hops as [Ho Hos].
      specialize (IHo Hos).
      destruct o; simpl in Ho; cbn [successes_added failures_added];
        try apply in_unsigned_spec in Ho; lia. }
    destruct op as [| | a | a];
      cbn [run_counter_ops apply_counter_op successes_added failures_added];
      unfold increment_success, increment_failure, add_successes, add_failures,
        uadd; rewrite Hp;
      simpl in Hop; try apply in_unsigned_spec in Hop.
    + destruct (Z.ltb_spec (success_ctr c + 1) (2 ^ w)).
      * cbn [ret]. rewrite (IH Hops); [cbn [success_ctr failure_ctr]; lia |].
        unfold sfc_in_range. cbn [success_ctr failure_ctr]. rewrite !(proj2 (in_unsigned_spec _ _)) by lia.
        reflexivity.
      * split; [intros _; left; lia | reflexivity].
    + destruct (Z.ltb_spec (failure_ctr c + 1) (2 ^ w)).
      * cbn [ret]. rewrite (IH Hops); [cbn [success_ctr failure_ctr]; lia |].
        unfold sfc_in_range. cbn [success_ctr failure_ctr]. rewrite !(proj2 (in_unsigned_spec _ _)) by lia.
        reflexivity.
      * split; [intros _; right; lia | reflexivity].
    + destruct (Z.ltb_spec (success_ctr c + a) (2 ^ w)).
      * cbn [ret]. rewrite (IH Hops); [cbn [success_ctr failure_ctr]; lia |].
        unfold sfc_in_range. cbn [success_ctr failure_ctr]. rewrite !(proj2 (in_unsigned_spec _ _)) by lia.
        reflexivity.
      * split; [intros _; left; lia | reflexivity].
    + destruct (Z.ltb_spec (failure_ctr c + a) (2 ^ w)).
      * cbn [ret]. rewrite (IH Hops); [cbn [success_ctr failure_ctr]; lia |].
        unfold sfc_in_range. cbn [success_ctr failure_ctr]. rewrite !(proj2 (in_unsigned_spec _ _)) by lia.
        reflexivity.
      * split; [intros _; right; lia | reflexivity].
Qed.

(** ** Claims *)

(** Closes a hypothesis about concrete values by evaluation. *)
Ltac close_concrete :=
  solve [ vm_compute; first [ reflexivity | intro; discriminate ] ].

(** C1 (amended): a [read] whose wrapped call returns [Ok(n)] adds one
    success, adds [n] to the read-byte total, advances the shadow cursor by
    [n] and appends [(Read(buf.len()), Read(Ok(n)))], as long as none of
    these additions overflows its 64-bit field; a failed wrapped read adds
    one failure, appends the error kind and keeps the cursor; a sequence of
    successful reads of total length [L] that stays below [2^64] adds [L] to
    the byte total and to the cursor.  This holds in every build profile.
    When one of the additions overflows, a build with overflow checks
    panics, and a build without them stores every field modulo [2^64] and
    returns. *)
Theorem read_updates_stats_without_overflow {T C : Type} `{LogContainer C}
  `{Io.Read T} :
  (forall (p : Profile) (s : IOStatWrapper T C) (buf buf' : list byte)
          (t : T) (n : Z),
     wrapper_in_range s = true ->
     Io.read (inner_io s) buf = (t, buf', Ok n) ->
     0 <= n ->
     success_ctr (read_call_counter s) + 1 < 2 ^ 64 ->
     read_byte_counter s + n < 2 ^ 64 ->
     seek_pos s + n < 2 ^ 64 ->
     exists s', read p s buf = Some (s', buf', Ok n) /\
       read_call_counter s' =
         mkSFC (success_ctr (read_call_counter s) + 1)
               (failure_ctr (read_call_counter s)) /\
       read_byte_counter s' = read_byte_counter s + n /\
       seek_pos s' = seek_pos s + n /\
       iop_log s' = log_extend (iop_log s)
         [(IopActions.Read (Z.of_nat (length buf)), IopResults.Read (Ok n))]) /\
  (forall (p : Profile) (s : IOStatWrapper T C) (buf buf' : list byte)
          (t : T) (e : io_error),
     wrapper_in_range s = true ->
     Io.read (inner_io s) buf = (t, buf', Err e) ->
     failure_ctr (read_call_counter s) + 1 < 2 ^ 64 ->
     exists s', read p s buf = Some (s', buf', Err e) /\
       read_call_counter s' =
         mkSFC (success_ctr (read_call_counter s))
               (failure_ctr (read_call_counter s) + 1) /\
       seek_pos s' = seek_pos s /\
       iop_log s' = log_extend (iop_log s)
         [(IopActions.Read (Z.of_nat (length buf)),
           IopResults.Read (Err (kind e)))]) /\
  (forall (p : Profile) (s s' : IOStatWrapper T C) (bufs : list (list byte))
          (rs : list (IOResult Z)),
     wrapper_in_range s = true ->
     reads p s bufs = Some (s', rs) ->
     all_ok_usize rs ->
     read_byte_counter s + ok_total rs < 2 ^ 64 ->
     seek_pos s + ok_total rs < 2 ^ 64 ->
     read_byte_counter s' = read_byte_counter s + ok_total rs /\
     seek_pos s' = seek_pos s + ok_total rs) /\
  (forall (p : Profile) (s : IOStatWrapper T C) (buf buf' : list byte)
          (t : T) (n : Z),
     overflow_checks p = true ->
     wrapper_in_range s = true ->
     Io.read (inner_io s) buf = (t, buf', Ok n) ->
     0 <= n < 2 ^ 64 ->
     (2 ^ 64 <= success_ctr (read_call_counter s) + 1 \/
      2 ^ 64 <= read_byte_counter s + n \/
      2 ^ 64 <= seek_pos s + n) ->
     read p s buf = None) /\
  (forall (p : Profile) (s : IOStatWrapper T C) (buf buf' : list byte)
          (t : T) (e : io_error),
     overflow_checks p = true ->
     Io.read (inner_io s) buf = (t, buf', Err e) ->
     2 ^ 64 <= failure_ctr (read_call_counter s) + 1 ->
     read p s buf = None) /\
  (forall (p : Profile) (s : IOStatWrapper T C) (buf buf' : list byte)
          (t : T) (n : Z),
     overflow_checks p = false ->
     Io.read (inner_io s) buf = (t, buf', Ok n) ->
     0 <= n < 2 ^ 64 ->
     exists s', read p s buf = Some (s', buf', Ok n) /\
       read_call_counter s' =
         mkSFC ((success_ctr (read_call_counter s) + 1) mod 2 ^ 64)
               (failure_ctr (read_call_counter s)) /\
       read_byte_counter s' = (read_byte_counter s + n) mod 2 ^ 64 /\
       seek_pos s' = (seek_pos s + n) mod 2 ^ 64 /\
       iop_log s' = log_extend (iop_log s)
         [(IopActions.Read (Z.of_nat (length buf)), IopResults.Read (Ok n))]) /\
  (forall (p : Profile) (s : IOStatWrapper T C) (buf buf' : list byte)
          (t : T) (e : io_error),
     overflow_checks p = false ->
     Io.read (inner_io s) buf = (t, buf', Err e) ->
     exists s', read p s buf = Some (s', buf', Err e) /\
       read_call_counter s' =
         mkSFC (success_ctr (read_call_counter s))
               ((failure_ctr (read_call_counter s) + 1) mod 2 ^ 64) /\
       seek_pos s' = seek_pos s /\
       iop_log s' = log_extend (iop_log s)
         [(IopActions.Read (Z.of_nat (length buf)),
           IopResults.Read (Err (kind e)))]).
Proof.
  split; [| split; [| split; [| split; [| split; [| split]]]]].
  - intros p s buf buf' t n Hr Hin Hn H1 H2 H3.
    rewrite (read_ok_step p s buf buf' t n Hr Hin Hn H1 H2 H3).
    eexists. split; [reflexivity |]. simpl. repeat split.
  - intros p s buf buf' t e Hr Hin H1.
    rewrite (read_err_step p s buf buf' t e Hr Hin H1).
    eexists. split; [reflexivity |]. simpl. repeat split.
  - intros p s s' bufs rs. apply reads_total.
  - exact read_ok_checked_panics.
  - exact read_err_checked_panics.
  - intros p s buf buf' t n Hp Hin Hn.
    rewrite (read_ok_unchecked p s buf buf' t n Hp Hin Hn).
    eexists. split; [reflexivity |]. simpl. repeat split.
  - intros p s buf buf' t e Hp Hin.
    rewrite (read_err_unchecked p s buf buf' t e Hp Hin).
    eexists. split; [reflexivity |]. simpl. repeat split.
Qed.

Lemma read_updates_stats_without_overflow_witness :
  (exists s', read dev_profile (cursor_wrapper test_bytes 0 0) (repeat x00 8)
                = Some (s', test_bytes, Ok 8) /\
     read_call_counter s' = mkSFC 1 0 /\ read_byte_counter s' = 8 /\
     seek_pos s' = 8 /\
     iop_log s' = [(IopActions.Read 8, IopResults.Read (Ok 8))]) /\
  read dev_profile (cursor_wrapper [x2a] 0 u64_max) [x00] = None /\
  (exists s', read release_profile (cursor_wrapper [x2a] 0 u64_max) [x00]
                = Some (s', [x2a], Ok 1) /\ seek_pos s' = 0).
Proof.
  split; [| split].
  - destruct (proj1 read_updates_stats_without_overflow dev_profile
                (cursor_wrapper test_bytes 0 0) (repeat x00 8) test_bytes
                (Cursor.mk test_bytes 8) 8) as [s' Hs]; try close_concrete.
    exists s'. exact Hs.
  - apply (proj1 (proj2 (proj2 (proj2 read_updates_stats_without_overflow)))
             dev_profile (cursor_wrapper [x2a] 0 u64_max) [x00] [x2a]
             (Cursor.mk [x2a] 1) 1); try close_concrete.
    + split; close_concrete.
    + right. right. close_concrete.
  - destruct (proj1 (proj2 (proj2 (proj2 (proj2 (proj2
                read_updates_stats_without_overflow)))))
                release_profile (cursor_wrapper [x2a] 0 u64_max) [x00] [x2a]
                (Cursor.mk [x2a] 1) 1) as [s' [E [_ [_ [P _]]]]];
      try close_concrete; [split; close_concrete |].
    exists s'. split; [exact E |]. rewrite P. vm_compute. reflexivity.
Defined.

(** C1 fails at the top of the cursor range: a wrapper created with start
    position [u64::MAX] whose wrapped cursor reads one byte panics in a
    debug build and wraps the shadow cursor to 0 in a release build. *)
Lemma read_cursor_overflow_counterexample :
  read dev_profile (cursor_wrapper [x2a] 0 u64_max) [x00] = None /\
  exists s' b,
    read release_profile (cursor_wrapper [x2a] 0 u64_max) [x00]
      = Some (s', b, Ok 1) /\
    seek_pos s' = 0 /\
    seek_pos s' <> seek_pos (cursor_wrapper [x2a] 0 u64_max) + 1.
Proof.
  split; [vm_compute; reflexivity |].
  eexists; eexists; split; [vm_compute; reflexivity |].
  vm_compute. split; [reflexivity | discriminate].
Qed.

(** C2 (amended): a [seek] whose wrapped call returns [Ok(n)] replaces the
    shadow cursor by [n], adds one success and appends
    [(Seek(pos), Seek(Ok(n)))] for every [SeekFrom] variant whenever the
    call returns (the success counter then grows with the build's [u64]
    addition: exactly by one with overflow checks, modulo [2^64] without).
    The call returns whenever the success counter does not overflow and
    either debug assertions are off, or the request is not [Current(d)], or
    [n] is the position [p + d] computed with the build's arithmetic ([p]
    the cursor before the call): [p + d] itself with overflow checks,
    [(p + d) mod 2^64] without them.  With debug assertions on, a
    [Current(d)] seek answered with any other position panics, whatever the
    counters hold.  A failed wrapped seek adds one failure, appends the
    error kind and keeps the cursor. *)
Theorem seek_replaces_cursor {T C : Type} `{LogContainer C} `{Io.Seek T} :
  (forall (p : Profile) (s : IOStatWrapper T C) (pos : SeekFrom.t)
          (t : T) (n : Z),
     wrapper_in_range s = true ->
     seekfrom_in_range pos = true ->
     Io.seek (inner_io s) pos = (t, Ok n) ->
     0 <= n < 2 ^ 64 ->
     success_ctr (seek_call_counter s) + 1 < 2 ^ 64 ->
     (debug_assertions p = false \/
      forall d, pos = SeekFrom.Current d ->
        n = if overflow_checks p then seek_pos s + d
            else (seek_pos s + d) mod 2 ^ 64) ->
     exists s', seek p s pos = Some (s', Ok n) /\
       seek_pos s' = n /\
       seek_call_counter s' =
         mkSFC (success_ctr (seek_call_counter s) + 1)
               (failure_ctr (seek_call_counter s)) /\
       iop_log s' = log_extend (iop_log s)
         [(IopActions.Seek pos, IopResults.Seek (Ok n))]) /\
  (forall (p : Profile) (s : IOStatWrapper T C) (pos : SeekFrom.t)
          (t : T) (e : io_error),
     wrapper_in_range s = true ->
     Io.seek (inner_io s) pos = (t, Err e) ->
     failure_ctr (seek_call_counter s) + 1 < 2 ^ 64 ->
     exists s', seek p s pos = Some (s', Err e) /\
       seek_pos s' = seek_pos s /\
       seek_call_counter s' =
         mkSFC (success_ctr (seek_call_counter s))
               (failure_ctr (seek_call_counter s) + 1) /\
       iop_log s' = log_extend (iop_log s)
         [(IopActions.Seek pos, IopResults.Seek (Err (kind e)))]) /\
  (forall (p : Profile) (s : IOStatWrapper T C) (pos : SeekFrom.t)
          (t : T) (n : Z) (s' : IOStatWrapper T C) (r : IOResult Z),
     wrapper_in_range s = true ->
     Io.seek (inner_io s) pos = (t, Ok n) ->
     seek p s pos = Some (s', r) ->
     r = Ok n /\ seek_pos s' = n /\
     seek_call_counter s' =
       mkSFC ((success_ctr (seek_call_counter s) + 1) mod 2 ^ 64)
             (failure_ctr (seek_call_counter s)) /\
     (overflow_checks p = true ->
      success_ctr (seek_call_counter s') = success_ctr (seek_call_counter s) + 1) /\
     iop_log s' = log_extend (iop_log s)
       [(IopActions.Seek pos, IopResults.Seek (Ok n))]) /\
  (forall (p : Profile) (s : IOStatWrapper T C) (d : Z) (t : T) (n : Z),
     debug_assertions p = true ->
     wrapper_in_range s = true ->
     in_i64 d = true ->
     Io.seek (inner_io s) (SeekFrom.Current d) = (t, Ok n) ->
     0 <= n < 2 ^ 64 ->
     (if overflow_checks p then n <> seek_pos s + d
      else n <> (seek_pos s + d) mod 2 ^ 64) ->
     seek p s (SeekFrom.Current d) = None).
Proof.
  split; [| split; [| split]].
  - intros p s pos t n Hr Hpos Hin Hn H1 Hcheck.
    rewrite (seek_ok_step p s pos t n Hr Hin H1).
    assert (Hc : match pos with
                 | SeekFrom.Current d => seek_current_check p (seek_pos s) d n
                 | _ => ret tt
                 end = Some tt).
    { destruct pos as [m | d | d]; try reflexivity.
      simpl in Hpos.
      destruct (debug_assertions p) eqn:Hp.
      - destruct Hcheck as [Hf | Heq]; [discriminate |].
        specialize (Heq d eq_refl).
        assert (0 <= seek_pos s < 2 ^ 64) by (unpack_ranges; lia).
        apply seek_current_check_debug_wrap; auto.
      - apply seek_current_check_no_debug; auto. }
    rewrite Hc. eexists. split; [reflexivity |]. simpl. repeat split.
  - intros p s pos t e Hr Hin H1.
    rewrite (seek_err_step p s pos t e Hr Hin H1).
    eexists. split; [reflexivity |]. simpl. repeat split.
  - exact seek_ok_returns.
  - exact seek_current_mismatch_panics.
Qed.

Lemma seek_replaces_cursor_witness :
  (exists s', seek dev_profile (cursor_wrapper test_bytes 0 0) (SeekFrom.Start 4)
                = Some (s', Ok 4) /\
     seek_pos s' = 4 /\ seek_call_counter s' = mkSFC 1 0 /\
     iop_log s' = [(IopActions.Seek (SeekFrom.Start 4), IopResults.Seek (Ok 4))]) /\
  (exists s', seek dev_profile (cursor_wrapper test_bytes 3 3) (SeekFrom.Current 2)
                = Some (s', Ok 5) /\ seek_pos s' = 5) /\
  seek dev_profile (cursor_wrapper test_bytes 5 0) (SeekFrom.Current 1) = None.
Proof.
  split; [| split].
  - destruct (proj1 seek_replaces_cursor dev_profile
                (cursor_wrapper test_bytes 0 0) (SeekFrom.Start 4)
                (Cursor.mk test_bytes 4) 4) as [s' Hs]; try close_concrete.
    + split; close_concrete.
    + right. intros d E. discriminate E.
    + exists s'. exact Hs.
  - destruct (proj1 seek_replaces_cursor dev_profile
                (cursor_wrapper test_bytes 3 3) (SeekFrom.Current 2)
                (Cursor.mk test_bytes 5) 5) as [s' [E [P _]]]; try close_concrete.
    + split; close_concrete.
    + right. intros d Ed. injection Ed as <-. reflexivity.
    + exists s'. split; [exact E | exact P].
  - apply (proj2 (proj2 (proj2 seek_replaces_cursor)) dev_profile
             (cursor_wrapper test_bytes 5 0) 1 (Cursor.mk test_bytes 6) 6);
      try close_concrete.
    split; close_concrete.
Defined.

(** C2 fails in a debug build when the wrapped object answers a
    [Current(d)] seek with a position other than [p + d]: here the caller
    created the wrapper at 0 over a cursor standing at 5, and [Current(1)]
    returns [Ok(6)]; the debug assertion panics, so the cursor is never
    replaced and no record is appended. *)
Lemma seek_current_mismatch_counterexample :
  Io.seek (inner_io (cursor_wrapper test_bytes 5 0)) (SeekFrom.Current 1)
    = (Cursor.mk test_bytes 6, Ok 6) /\
  seek dev_profile (cursor_wrapper test_bytes 5 0) (SeekFrom.Current 1) = None.
Proof. split; vm_compute; reflexivity. Qed.

(** C3 (amended): a [write] whose wrapped call returns [Ok(n)] adds one
    success, adds [n] to the write-byte total, advances the shadow cursor by
    [n] and appends [(Write(buf.len()), Write(Ok(n)))], as long as none of
    these additions overflows its 64-bit field; a failed wrapped write adds
    one failure, appends the error kind and keeps the cursor.  When one of
    the additions overflows, a build with overflow checks panics, and a
    build without them stores every field modulo [2^64] and returns. *)
Theorem write_updates_stats_without_overflow {T C : Type} `{LogContainer C}
  `{Io.Write T} :
  (forall (p : Profile) (s : IOStatWrapper T C) (buf : list byte)
          (t : T) (n : Z),
     wrapper_in_range s = true ->
     Io.write (inner_io s) buf = (t, Ok n) ->
     0 <= n ->
     success_ctr (write_call_counter s) + 1 < 2 ^ 64 ->
     write_byte_counter s + n < 2 ^ 64 ->
     seek_pos s + n < 2 ^ 64 ->
     exists s', write p s buf = Some (s', Ok n) /\
       write_call_counter s' =
         mkSFC (success_ctr (write_call_counter s) + 1)
               (failure_ctr (write_call_counter s)) /\
       write_byte_counter s' = write_byte_counter s + n /\
       seek_pos s' = seek_pos s + n /\
       iop_log s' = log_extend (iop_log s)
         [(IopActions.Write (Z.of_nat (length buf)), IopResults.Write (Ok n))]) /\
  (forall (p : Profile) (s : IOStatWrapper T C) (buf : list byte)
          (t : T) (e : io_error),
     wrapper_in_range s = true ->
     Io.write (inner_io s) buf = (t, Err e) ->
     failure_ctr (write_call_counter s) + 1 < 2 ^ 64 ->
     exists s', write p s buf = Some (s', Err e) /\
       write_call_counter s' =
         mkSFC (success_ctr (write_call_counter s))
               (failure_ctr (write_call_counter s) + 1) /\
       seek_pos s' = seek_pos s /\
       iop_log s' = log_extend (iop_log s)
         [(IopActions.Write (Z.of_nat (length buf)),
           IopResults.Write (Err (kind e)))]) /\
  (forall (p : Profile) (s : IOStatWrapper T C) (buf : list byte)
          (t : T) (n : Z),
     overflow_checks p = true ->
     wrapper_in_range s = true ->
     Io.write (inner_io s) buf = (t, Ok n) ->
     0 <= n < 2 ^ 64 ->
     (2 ^ 64 <= success_ctr (write_call_counter s) + 1 \/
      2 ^ 64 <= write_byte_counter s + n \/
      2 ^ 64 <= seek_pos s + n) ->
     write p s buf = None) /\
  (forall (p : Profile) (s : IOStatWrapper T C) (buf : list byte)
          (t : T) (e : io_error),
     overflow_checks p = true ->
     Io.write (inner_io s) buf = (t, Err e) ->
     2 ^ 64 <= failure_ctr (write_call_counter s) + 1 ->
     write p s buf = None) /\
  (forall (p : Profile) (s : IOStatWrapper T C) (buf : list byte)
          (t : T) (n : Z),
     overflow_checks p = false ->
     Io.write (inner_io s) buf = (t, Ok n) ->
     0 <= n < 2 ^ 64 ->
     exists s', write p s buf = Some (s', Ok n) /\
       write_call_counter s' =
         mkSFC ((success_ctr (write_call_counter s) + 1) mod 2 ^ 64)
               (failure_ctr (write_call_counter s)) /\
       write_byte_counter s' = (write_byte_counter s + n) mod 2 ^ 64 /\
       seek_pos s' = (seek_pos s + n) mod 2 ^ 64 /\
       iop_log s' = log_extend (iop_log s)
         [(IopActions.Write (Z.of_nat (length buf)), IopResults.Write (Ok n))]) /\
  (forall (p : Profile) (s : IOStatWrapper T C) (buf : list byte)
          (t : T) (e : io_error),
     overflow_checks p = false ->
     Io.write (inner_io s) buf = (t, Err e) ->
     exists s', write p s buf = Some (s', Err e) /\
       write_call_counter s' =
         mkSFC (success_ctr (write_call_counter s))
               ((failure_ctr (write_call_counter s) + 1) mod 2 ^ 64) /\
       seek_pos s' = seek_pos s /\
       iop_log s' = log_extend (iop_log s)
         [(IopActions.Write (Z.of_nat (length buf)),
           IopResults.Write (Err (kind e)))]).
Proof.
  split; [| split; [| split; [| split; [| split]]]].
  - intros p s buf t n Hr Hin Hn H1 H2 H3.
    rewrite (write_ok_step p s buf t n Hr Hin Hn H1 H2 H3).
    eexists. split; [reflexivity |]. simpl. repeat split.
  - intros p s buf t e Hr Hin H1.
    rewrite (write_err_step p s buf t e Hr Hin H1).
    eexists. split; [reflexivity |]. simpl. repeat split.
  - exact write_ok_checked_panics.
  - exact write_err_checked_panics.
  - intros p s buf t n Hp Hin Hn.
    rewrite (write_ok_unchecked p s buf t n Hp Hin Hn).
    eexists. split; [reflexivity |]. simpl. repeat split.
  - intros p s buf t e Hp Hin.
    rewrite (write_err_unchecked p s buf t e Hp Hin).
    eexists. split; [reflexivity |]. simpl. repeat split.
Qed.

Lemma write_updates_stats_without_overflow_witness :
  (exists s', write dev_profile (cursor_wrapper test_bytes 4 4) [x00; x01; x02; x03]
                = Some (s', Ok 4) /\
     write_call_counter s' = mkSFC 1 0 /\ write_byte_counter s' = 4 /\
     seek_pos s' = 8 /\
     iop_log s' = [(IopActions.Write 4, IopResults.Write (Ok 4))]) /\
  write dev_profile (cursor_wrapper [x00] 0 u64_max) [x2a] = None /\
  (exists s', write release_profile (cursor_wrapper [x00] 0 u64_max) [x2a]
                = Some (s', Ok 1) /\ seek_pos s' = 0).
Proof.
  split; [| split].
  - destruct (proj1 write_updates_stats_without_overflow dev_profile
                (cursor_wrapper test_bytes 4 4) [x00; x01; x02; x03]
                (Cursor.mk [x00; x01; x02; x03; x00; x01; x02; x03] 8) 4)
      as [s' Hs]; try close_concrete.
    exists s'. exact Hs.
  - apply (proj1 (proj2 (proj2 write_updates_stats_without_overflow))
             dev_profile (cursor_wrapper [x00] 0 u64_max) [x2a]
             (Cursor.mk [x2a] 1) 1); try close_concrete.
    + split; close_concrete.
    + right. right. close_concrete.
  - destruct (proj1 (proj2 (proj2 (proj2 (proj2
                write_updates_stats_without_overflow))))
                release_profile (cursor_wrapper [x00] 0 u64_max) [x2a]
                (Cursor.mk [x2a] 1) 1) as [s' [E [_ [_ [P _]]]]];
      try close_concrete; [split; close_concrete |].
    exists s'. split; [exact E |]. rewrite P. vm_compute. reflexivity.
Defined.

(** C3 fails at the top of the cursor range: one byte written through a
    wrapper created at [u64::MAX] panics in a debug build and wraps the
    shadow cursor to 0 in a release build. *)
Lemma write_cursor_overflow_counterexample :
  write dev_profile (cursor_wrapper [x00] 0 u64_max) [x2a] = None /\
  exists s',
    write release_profile (cursor_wrapper [x00] 0 u64_max) [x2a]
      = Some (s', Ok 1) /\
    seek_pos s' = 0 /\
    seek_pos s' <> seek_pos (cursor_wrapper [x00] 0 u64_max) + 1.
Proof.
  split; [vm_compute; reflexivity |].
  eexists; split; [vm_compute; reflexivity |].
  vm_compute. split; [reflexivity | discriminate].
Qed.

(** C4: on every [i64] [d], [abs_sign_tuple::<i64, u64>(d)] returns
    [Positive(d)] when [d > 0], [Zero] when [d = 0] and [Negative(-d)] when
    [d < 0]; at [i64::MIN] the magnitude [2^63] is built as
    [u64::from(i64::MAX) + 1], where negating [d] through [i64::abs] would
    panic (with overflow checks) or stay negative (without). *)
Theorem abs_sign_tuple_magnitude (p : Profile) (d : Z) :
  in_i64 d = true ->
  abs_sign_tuple p d =
    Some (if 0 <? d then Positive d
          else if d =? 0 then Zero
          else Negative (- d)) /\
  (d = i64_min -> abs_sign_tuple p d = Some (Negative (2 ^ 63))) /\
  i64_abs dev_profile i64_min = None /\
  i64_abs release_profile i64_min = Some i64_min.
Proof.
  intros Hd. split; [apply abs_sign_tuple_i64; exact Hd |].
  split; [| split; reflexivity].
  intros ->. rewrite (abs_sign_tuple_i64 p i64_min Hd). reflexivity.
Qed.

Lemma abs_sign_tuple_magnitude_witness :
  abs_sign_tuple dev_profile i64_min = Some (Negative 9223372036854775808) /\
  abs_sign_tuple release_profile (-5) = Some (Negative 5).
Proof.
  split.
  - exact (proj1 (proj2 (abs_sign_tuple_magnitude dev_profile i64_min
                           ltac:(close_concrete))) eq_refl).
  - exact (proj1 (abs_sign_tuple_magnitude release_profile (-5)
                    ltac:(close_concrete))).
Defined.

(** C5: for a [Current(d)] seek answered with [Ok(n)] from shadow cursor
    [p], with debug assertions on and [p + d] a [u64], the consistency check
    passes, and so the call returns, exactly when [n = p + d]; this includes
    [d = i64::MIN]. *)
Theorem seek_current_consistency {T C : Type} `{LogContainer C} `{Io.Seek T}
  (p : Profile) (s : IOStatWrapper T C) (d : Z) (t : T) (n : Z) :
  debug_assertions p = true ->
  wrapper_in_range s = true ->
  in_i64 d = true ->
  0 <= seek_pos s + d < 2 ^ 64 ->
  success_ctr (seek_call_counter s) + 1 < 2 ^ 64 ->
  Io.seek (inner_io s) (SeekFrom.Current d) = (t, Ok n) ->
  (seek_current_check p (seek_pos s) d n = Some tt <-> n = seek_pos s + d) /\
  ((exists r, seek p s (SeekFrom.Current d) = Some r) <-> n = seek_pos s + d).
Proof.
  intros Hp Hr Hd Hpd H1 Hin.
  assert (Hpos : 0 <= seek_pos s) by (unpack_ranges; lia).
  pose proof (seek_current_check_debug p (seek_pos s) d n Hp Hd Hpos Hpd) as Hc.
  split; [exact Hc |].
  rewrite (seek_ok_step p s (SeekFrom.Current d) t n Hr Hin H1).
  rewrite <- Hc.
  destruct (seek_current_check p (seek_pos s) d n) as [[] |].
  - split; [reflexivity | intros _; eexists; reflexivity].
  - split; [intros [r E]; discriminate E | intros E; discriminate E].
Qed.

(** The position [2^63 + 5] lies past the cursor's data, which a cursor
    accepts; [Current(i64::MIN)] brings it back to 5. *)
Lemma seek_current_consistency_witness :
  (exists r, seek dev_profile (cursor_wrapper test_bytes 9223372036854775813
                                 9223372036854775813)
                 (SeekFrom.Current i64_min) = Some r).
Proof.
  apply (proj2 (proj2 (seek_current_consistency dev_profile
     (cursor_wrapper test_bytes 9223372036854775813 9223372036854775813)
     i64_min (Cursor.mk test_bytes 5) 5
     ltac:(reflexivity) ltac:(close_concrete) ltac:(close_concrete)
     ltac:(split; close_concrete) ltac:(close_concrete) ltac:(close_concrete)))).
  reflexivity.
Defined.

(** C6: whenever a [read], [write], [seek] or [flush] call returns, it
    returns exactly the wrapped object's outcome (value or error, and the
    filled buffer of a read), and the wrapped object is left as its own call
    left it. *)
Theorem calls_return_inner_outcome {T C : Type} `{LogContainer C}
  `{Io.Read T} `{Io.Seek T} `{Io.Write T} :
  (forall p (s s' : IOStatWrapper T C) buf b r,
     read p s buf = Some (s', b, r) ->
     Io.read (inner_io s) buf = (inner_io s', b, r)) /\
  (forall p (s s' : IOStatWrapper T C) buf r,
     write p s buf = Some (s', r) ->
     Io.write (inner_io s) buf = (inner_io s', r)) /\
  (forall p (s s' : IOStatWrapper T C) pos r,
     seek p s pos = Some (s', r) ->
     Io.seek (inner_io s) pos = (inner_io s', r)) /\
  (forall p (s s' : IOStatWrapper T C) r,
     flush p s = Some (s', r) ->
     Io.flush (inner_io s) = (inner_io s', r)).
Proof.
  split; [| split; [| split]]; intros.
  - eapply read_returns_inner; eassumption.
  - eapply write_returns_inner; eassumption.
  - eapply seek_returns_inner; eassumption.
  - eapply flush_returns_inner; eassumption.
Qed.

(** A cursor refuses a seek before its start with [InvalidInput]; the
    wrapper hands the same error back. *)
Lemma calls_return_inner_outcome_witness :
  exists s',
    seek dev_profile (cursor_wrapper test_bytes 0 0) (SeekFrom.Current (-1))
      = Some (s', Err (mkIoError InvalidInput [])) /\
    Io.seek (inner_io (cursor_wrapper test_bytes 0 0)) (SeekFrom.Current (-1))
      = (inner_io s', Err (mkIoError InvalidInput [])).
Proof.
  eexists. split; [vm_compute; reflexivity |].
  apply (proj1 (proj2 (proj2 calls_return_inner_outcome)) dev_profile).
  vm_compute. reflexivity.
Defined.

(** ** Counter sequences *)


Lemma run_counter_ops_checked (p : Profile) (w : Z) (ops : list CounterOp) :
  overflow_checks p = true ->
  forall c c', run_counter_ops p w c ops = Some c' ->
  success_ctr c' = success_ctr c + successes_added ops /\
  failure_ctr c' = failure_ctr c + failures_added ops.
Proof.
  intros Hp. induction ops as [| op ops IH]; intros c c' Hrun; simpl in Hrun.
  - inversion Hrun; subst. simpl. lia.
  - destruct (apply_counter_op p w c op) as [c1 |] eqn:E; [| discriminate].
    destruct (IH c1 c' Hrun) as [A B].
    destruct op as [| | a | a]; simpl in E; cbn [successes_added failures_added];
      unfold increment_success, increment_failure, add_successes, add_failures
        in E;
      match type of E with
      | (match uadd ?p ?w ?x ?y with _ => _ end) = _ =>
          destruct (uadd p w x y) as [v |] eqn:Ev; [| discriminate];
          apply uadd_checked_value in Ev; [| exact Hp]
      end;
      inversion E; subst c1; simpl in A, B; split; lia.
Qed.

Lemma run_counter_ops_unchecked (p : Profile) (w : Z) (ops : list CounterOp) :
  overflow_checks p = false -> 0 <= w ->
  forall c, sfc_in_range w c = true ->
  exists c', run_counter_ops p w c ops = Some c' /\
    success_ctr c' = (success_ctr c + successes_added ops) mod 2 ^ w /\
    failure_ctr c' = (failure_ctr c + failures_added ops) mod 2 ^ w.
Proof.
  intros Hp Hw.
  assert (Hm : 0 < 2 ^ w) by (apply Z.pow_pos_nonneg; lia).
  induction ops as [| op ops IH]; intros c Hc.
  - exists c. unfold sfc_in_range in Hc. apply andb_true_iff in Hc.
    destruct Hc as [Hs Hf]. apply in_unsigned_spec in Hs, Hf.
    simpl. rewrite !Z.add_0_r, !Z.mod_small by lia. repeat split.
  - assert (Hrange : forall x, in_unsigned w (x mod 2 ^ w) = true).
    { intros x. apply in_unsigned_spec. apply Z.mod_pos_bound. lia. }
    destruct op as [| | a | a];
      cbn [run_counter_ops apply_counter_op successes_added failures_added];
      unfold increment_success, increment_failure, add_successes, add_failures;
      rewrite uadd_overflow_unchecked by exact Hp;
      cbn [ret success_ctr failure_ctr].
    + destruct (IH (mkSFC ((success_ctr c + 1) mod 2 ^ w) (failure_ctr c)))
        as [c' [E [A B]]].
      { unfold sfc_in_range in *. simpl. rewrite Hrange.
        apply andb_true_iff in Hc. tauto. }
      exists c'. split; [exact E |]. simpl in A, B.
      rewrite A, B, Z.add_mod_idemp_l by lia. split; [f_equal; lia | reflexivity].
    + destruct (IH (mkSFC (success_ctr c) ((failure_ctr c + 1) mod 2 ^ w)))
        as [c' [E [A B]]].
      { unfold sfc_in_range in *. simpl. rewrite Hrange.
        apply andb_true_iff in Hc. rewrite andb_true_r. tauto. }
      exists c'. split; [exact E |]. simpl in A, B.
      rewrite A, B, Z.add_mod_idemp_l by lia. split; [reflexivity | f_equal; lia].
    + destruct (IH (mkSFC ((success_ctr c + a) mod 2 ^ w) (failure_ctr c)))
        as [c' [E [A B]]].
      { unfold sfc_in_range in *. simpl. rewrite Hrange.
        apply andb_true_iff in Hc. tauto. }
      exists c'. split; [exact E |]. simpl in A, B.
      rewrite A, B, Z.add_mod_idemp_l by lia. split; [f_equal; lia | reflexivity].
    + destruct (IH (mkSFC (success_ctr c) ((failure_ctr c + a) mod 2 ^ w)))
        as [c' [E [A B]]].
      { unfold sfc_in_range in *. simpl. rewrite Hrange.
        apply andb_true_iff in Hc. rewrite andb_true_r. tauto. }
      exists c'. split; [exact E |]. simpl in A, B.
      rewrite A, B, Z.add_mod_idemp_l by lia. split; [reflexivity | f_equal; lia].
Qed.

(** C7 (amended): [attempt_ctr()] is [success_ctr() + failure_ctr()]
    computed with the [w]-bit type's own [+].  Without overflow checks every
    counter operation wraps modulo [2^w] and [attempt_ctr()] is the wrapped
    sum.  With overflow checks an operation that would overflow panics
    instead of wrapping: a sequence of operations from the default counter
    panics exactly when the successes or the failures it adds reach [2^w];
    a sequence that completes leaves the exact sums, and [attempt_ctr()]
    returns their sum or panics when it reaches [2^w]. *)
Theorem counter_attempts_per_profile (p : Profile) (w : Z)
  (ops : list CounterOp) :
  0 <= w ->
  forallb (op_in_range w) ops = true ->
  (overflow_checks p = false ->
   exists c, run_counter_ops p w sfc_default ops = Some c /\
     success_ctr c = successes_added ops mod 2 ^ w /\
     failure_ctr c = failures_added ops mod 2 ^ w /\
     attempt_ctr p w c = Some ((success_ctr c + failure_ctr c) mod 2 ^ w)) /\
  (overflow_checks p = true ->
   (run_counter_ops p w sfc_default ops = None <->
    2 ^ w <= successes_added ops \/ 2 ^ w <= failures_added ops) /\
   forall c, run_counter_ops p w sfc_default ops = Some c ->
     success_ctr c = successes_added ops /\
     failure_ctr c = failures_added ops /\
     attempt_ctr p w c =
       if successes_added ops + failures_added ops <? 2 ^ w
       then Some (successes_added ops + failures_added ops) else None).
Proof.
  intros Hw Hops.
  assert (H0 : sfc_in_range w sfc_default = true).
  { unfold sfc_in_range, sfc_default, in_unsigned. simpl.
    assert (0 < 2 ^ w) by (apply Z.pow_pos_nonneg; lia).
    destruct (Z.ltb_spec 0 (2 ^ w)); [reflexivity | lia]. }
  split.
  - intros Hp.
    destruct (run_counter_ops_unchecked p w ops Hp Hw sfc_default H0)
      as [c [E [A B]]].
    exists c. simpl in A, B. split; [exact E |]. split; [exact A |].
    split; [exact B |].
    unfold attempt_ctr. apply uadd_overflow_unchecked. exact Hp.
  - intros Hp. split.
    + rewrite (run_counter_ops_checked_none p w ops Hp Hw Hops sfc_default H0).
      unfold sfc_default. cbn [success_ctr failure_ctr].
      rewrite !Z.add_0_l. reflexivity.
    + intros c E.
      destruct (run_counter_ops_checked p w ops Hp sfc_default c E) as [A B].
      simpl in A, B. split; [exact A |]. split; [exact B |].
      unfold attempt_ctr, uadd. rewrite Hp, A, B. reflexivity.
Qed.

Lemma counter_attempts_per_profile_witness :
  (exists c, run_counter_ops release_profile 8 sfc_default
               [AddSuccesses 200; AddFailures 100] = Some c /\
     success_ctr c = 200 mod 2 ^ 8 /\ failure_ctr c = 100 mod 2 ^ 8 /\
     attempt_ctr release_profile 8 c
       = Some ((success_ctr c + failure_ctr c) mod 2 ^ 8)) /\
  (forall c, run_counter_ops dev_profile 8 sfc_default
               [AddSuccesses 200; AddFailures 100] = Some c ->
     success_ctr c = 200 /\ failure_ctr c = 100 /\
     attempt_ctr dev_profile 8 c = None) /\
  run_counter_ops dev_profile 8 sfc_default
    [AddSuccesses 255; IncrementSuccess] = None.
Proof.
  destruct (counter_attempts_per_profile release_profile 8
              [AddSuccesses 200; AddFailures 100]
              ltac:(lia) ltac:(reflexivity)) as [R _].
  destruct (counter_attempts_per_profile dev_profile 8
              [AddSuccesses 200; AddFailures 100]
              ltac:(lia) ltac:(reflexivity)) as [_ D].
  destruct (counter_attempts_per_profile dev_profile 8
              [AddSuccesses 255; IncrementSuccess]
              ltac:(lia) ltac:(reflexivity)) as [_ D2].
  split; [exact (R eq_refl) |]. split.
  - intros c E. exact (proj2 (D eq_refl) c E).
  - apply (proj2 (proj1 (D2 eq_refl))). left. close_concrete.
Defined.

(** C7 fails with overflow checks on (the debug profile): on a [u8] counter
    [increment_success] after [add_successes(255)] panics instead of
    wrapping to 0, and [attempt_ctr()] panics on 200 successes and 100
    failures instead of returning 44. *)
Lemma counter_overflow_panics_counterexample :
  run_counter_ops dev_profile 8 sfc_default
    [AddSuccesses 255; IncrementSuccess] = None /\
  run_counter_ops release_profile 8 sfc_default
    [AddSuccesses 255; IncrementSuccess] = Some (mkSFC 0 0) /\
  run_counter_ops dev_profile 8 sfc_default
    [AddSuccesses 200; AddFailures 100] = Some (mkSFC 200 100) /\
  attempt_ctr dev_profile 8 (mkSFC 200 100) = None /\
  attempt_ctr release_profile 8 (mkSFC 200 100) = Some 44.
Proof. vm_compute. repeat split. Qed.

(** C8 (amended): the conversion of a transferred byte count to [u64]
    never fails for a 64-bit [usize].  When advancing the shadow cursor [p]
    by the [n] bytes of a successful read or write passes [u64::MAX], a
    build with overflow checks panics, while a build without them stores
    the wrapped cursor [p + n - 2^64] and returns normally, whatever the
    counters hold.  It is not the only internal panic: with debug assertions
    on, a [Current(d)] seek answered with a position other than [p + d]
    (other than [(p + d) mod 2^64] in a build without overflow checks)
    panics as well. *)
Theorem cursor_overflow_per_profile {T C : Type} `{LogContainer C}
  `{Io.Read T} `{Io.Seek T} `{Io.Write T} :
  (forall n, 0 <= n < 2 ^ usize_bits -> u64_try_from_usize n = Some n) /\
  (forall (p : Profile) (s : IOStatWrapper T C) (buf buf' : list byte)
          (t : T) (n : Z),
     wrapper_in_range s = true ->
     Io.read (inner_io s) buf = (t, buf', Ok n) ->
     0 <= n < 2 ^ 64 ->
     2 ^ 64 <= seek_pos s + n ->
     (overflow_checks p = true -> read p s buf = None) /\
     (overflow_checks p = false ->
      exists s', read p s buf = Some (s', buf', Ok n) /\
        seek_pos s' = seek_pos s + n - 2 ^ 64)) /\
  (forall (p : Profile) (s : IOStatWrapper T C) (buf : list byte)
          (t : T) (n : Z),
     wrapper_in_range s = true ->
     Io.write (inner_io s) buf = (t, Ok n) ->
     0 <= n < 2 ^ 64 ->
     2 ^ 64 <= seek_pos s + n ->
     (overflow_checks p = true -> write p s buf = None) /\
     (overflow_checks p = false ->
      exists s', write p s buf = Some (s', Ok n) /\
        seek_pos s' = seek_pos s + n - 2 ^ 64)) /\
  (forall (p : Profile) (s : IOStatWrapper T C) (d : Z) (t : T) (n : Z),
     debug_assertions p = true ->
     wrapper_in_range s = true ->
     in_i64 d = true ->
     Io.seek (inner_io s) (SeekFrom.Current d) = (t, Ok n) ->
     0 <= n < 2 ^ 64 ->
     (if overflow_checks p then n <> seek_pos s + d
      else n <> (seek_pos s + d) mod 2 ^ 64) ->
     seek p s (SeekFrom.Current d) = None).
Proof.
  split; [| split; [| split]].
  - intros n Hn. unfold u64_try_from_usize.
    replace (in_unsigned u64_bits n) with true; [reflexivity |].
    symmetry. apply in_unsigned_spec. unfold u64_bits, usize_bits in *. lia.
  - intros p s buf buf' t n Hr Hin Hn K.
    assert (Hpos : 0 <= seek_pos s < 2 ^ 64) by (unpack_ranges; lia).
    split.
    + intros Hp. apply (read_ok_checked_panics p s buf buf' t n Hp Hr Hin Hn).
      right. right. exact K.
    + intros Hp. rewrite (read_ok_unchecked p s buf buf' t n Hp Hin Hn).
      eexists. split; [reflexivity |]. simpl.
      replace (seek_pos s + n) with (seek_pos s + n - 2 ^ 64 + 1 * 2 ^ 64)
        at 1 by lia.
      rewrite Z.mod_add, Z.mod_small by lia. reflexivity.
  - intros p s buf t n Hr Hin Hn K.
    assert (Hpos : 0 <= seek_pos s < 2 ^ 64) by (unpack_ranges; lia).
    split.
    + intros Hp. apply (write_ok_checked_panics p s buf t n Hp Hr Hin Hn).
      right. right. exact K.
    + intros Hp. rewrite (write_ok_unchecked p s buf t n Hp Hin Hn).
      eexists. split; [reflexivity |]. simpl.
      replace (seek_pos s + n) with (seek_pos s + n - 2 ^ 64 + 1 * 2 ^ 64)
        at 1 by lia.
      rewrite Z.mod_add, Z.mod_small by lia. reflexivity.
  - exact seek_current_mismatch_panics.
Qed.

Lemma cursor_overflow_per_profile_witness :
  read dev_profile (cursor_wrapper [x2a] 0 u64_max) [x00] = None /\
  (exists s', read release_profile (cursor_wrapper [x2a] 0 u64_max) [x00]
                = Some (s', [x2a], Ok 1) /\ seek_pos s' = 0) /\
  seek dev_profile (cursor_wrapper test_bytes 5 0) (SeekFrom.Current 1) = None.
Proof.
  destruct (proj1 (proj2 cursor_overflow_per_profile) dev_profile
              (cursor_wrapper [x2a] 0 u64_max) [x00] [x2a]
              (Cursor.mk [x2a] 1) 1) as [D _];
    try close_concrete; [split; close_concrete |].
  destruct (proj1 (proj2 cursor_overflow_per_profile) release_profile
              (cursor_wrapper [x2a] 0 u64_max) [x00] [x2a]
              (Cursor.mk [x2a] 1) 1) as [_ R];
    try close_concrete; [split; close_concrete |].
  split; [exact (D eq_refl) |]. split.
  - destruct (R eq_refl) as [s' [E P]]. exists s'. split; [exact E |].
    rewrite P. reflexivity.
  - apply (proj2 (proj2 (proj2 cursor_overflow_per_profile)) dev_profile
             (cursor_wrapper test_bytes 5 0) 1 (Cursor.mk test_bytes 6) 6);
      try close_concrete.
    split; close_concrete.
Defined.

(** C8 fails twice: without overflow checks the overflowing cursor is
    stored wrapped and the read returns normally, and the debug-assertion
    check of [seek] is another internal panic. *)
Lemma cursor_wraps_silently_counterexample :
  (exists s' b, read release_profile (cursor_wrapper [x2a] 0 u64_max) [x00]
                  = Some (s', b, Ok 1) /\ seek_pos s' = 0) /\
  seek dev_profile (cursor_wrapper test_bytes 5 0) (SeekFrom.Current 1) = None.
Proof.
  split; [| vm_compute; reflexivity].
  eexists; eexists; split; vm_compute; reflexivity.
Qed.

(** C9: [read_to_end], [read_to_string], [read_exact], [read_vectored],
    [rewind], [stream_position], [write_all], [write_fmt] and
    [write_vectored] forward to the wrapped object and return its outcome,
    leaving the log, the four counters, both byte totals and the shadow
    cursor unchanged. *)
Theorem passthroughs_keep_stats {T C : Type}
  `{Io.Read T} `{Io.Seek T} `{Io.Write T} (s : IOStatWrapper T C) :
  (forall buf, let '(s', b, r) := read_to_end s buf in
     same_stats s s' /\ Io.read_to_end (inner_io s) buf = (inner_io s', b, r)) /\
  (forall buf, let '(s', b, r) := read_to_string s buf in
     same_stats s s' /\ Io.read_to_string (inner_io s) buf = (inner_io s', b, r)) /\
  (forall buf, let '(s', b, r) := read_exact s buf in
     same_stats s s' /\ Io.read_exact (inner_io s) buf = (inner_io s', b, r)) /\
  (forall bufs, let '(s', b, r) := read_vectored s bufs in
     same_stats s s' /\ Io.read_vectored (inner_io s) bufs = (inner_io s', b, r)) /\
  (let '(s', r) := rewind s in
     same_stats s s' /\ Io.rewind (inner_io s) = (inner_io s', r)) /\
  (let '(s', r) := stream_position s in
     same_stats s s' /\ Io.stream_position (inner_io s) = (inner_io s', r)) /\
  (forall buf, let '(s', r) := write_all s buf in
     same_stats s s' /\ Io.write_all (inner_io s) buf = (inner_io s', r)) /\
  (forall fmt, let '(s', r) := write_fmt s fmt in
     same_stats s s' /\ Io.write_fmt (inner_io s) fmt = (inner_io s', r)) /\
  (forall bufs, let '(s', r) := write_vectored s bufs in
     same_stats s s' /\ Io.write_vectored (inner_io s) bufs = (inner_io s', r)).
Proof.
  unfold read_to_end, read_to_string, read_exact, read_vectored, rewind,
    stream_position, write_all, write_fmt, write_vectored, same_stats.
  repeat split; intros;
    repeat match goal with
    | |- context [match ?e with pair _ _ => _ end] =>
        lazymatch e with
        | match _ with _ => _ end => fail
        | pair _ _ => fail
        | _ => let E := fresh "E" in destruct e as [? ?] eqn:E
        end
    end;
    simpl; repeat split; first [reflexivity | assumption].
Qed.

(** C10: [new(obj, p)] starts with every counter and both byte totals at
    zero, the container's [Default] log (the empty [Vec]) and the shadow
    cursor at [p]; [into_inner] gives back [obj]. *)
Theorem new_initial_state {T C : Type} `{LogContainer C} (obj : T) (p : Z) :
  let s : IOStatWrapper T C := new obj p in
  iop_log s = log_default /\
  read_call_counter s = mkSFC 0 0 /\
  seek_call_counter s = mkSFC 0 0 /\
  write_call_counter s = mkSFC 0 0 /\
  write_flush_counter s = mkSFC 0 0 /\
  read_byte_counter s = 0 /\
  write_byte_counter s = 0 /\
  seek_pos s = p /\
  into_inner s = obj /\
  iop_log (new obj p : IOStatWrapper T (list IopInfoPair)) = [].
Proof. repeat split. Qed.

(** ** Runs of calls: helper lemmas *)



Lemma u64_try_from_usize_some (n d : Z) :
  u64_try_from_usize n = Some d -> d = n /\ 0 <= n < 2 ^ 64.
Proof.
  unfold u64_try_from_usize. destruct (in_unsigned u64_bits n) eqn:E;
    intros X; inversion X; subst.
  apply in_unsigned_spec in E. unfold u64_bits in E. split; [reflexivity | lia].
Qed.

(** Where a build with overflow checks computes [abs_sign_tuple], a build
    without them computes the same. *)
Lemma abs_sign_tuple_release (p : Profile) (d : Z) (r : SignedAbsResult) :
  abs_sign_tuple p d = Some r -> abs_sign_tuple release_profile d = Some r.
Proof.
  unfold abs_sign_tuple, i64_abs.
  destruct (i64_signum d =? 1).
  - destruct (d <? 0); [| exact (fun E => E)].
    destruct (- d <=? i64_max); [exact (fun E => E) |].
    destruct (overflow_checks p); [discriminate | exact (fun E => E)].
  - destruct (i64_signum d =? 0); [exact (fun E => E) |].
    destruct (i64_signum d =? -1); [| discriminate].
    destruct (d =? i64_min).
    + unfold unwrap, u64_from_i64.
      destruct (0 <=? i64_max) eqn:Hm; [| discriminate].
      destruct (uadd p u64_bits i64_max 1) as [v |] eqn:U; [| discriminate].
      apply uadd_mod in U; [| unfold u64_bits; lia | apply Z.leb_le; exact Hm | lia].
      subst v. exact (fun E => E).
    + destruct (d <? 0); [| exact (fun E => E)].
      destruct (- d <=? i64_max); [exact (fun E => E) |].
      destruct (overflow_checks p); [discriminate | exact (fun E => E)].
Qed.

Lemma seek_current_check_release (p : Profile) (old d n : Z) :
  seek_current_check p old d n = Some tt ->
  seek_current_check release_profile old d n = Some tt.
Proof.
  unfold seek_current_check.
  destruct (abs_sign_tuple p d) as [a |] eqn:A; [| discriminate].
  rewrite (abs_sign_tuple_release p d a A).
  intros _. destruct a; reflexivity.
Qed.

Lemma count_outcomes_app (f : Family) (ok : bool) (l1 l2 : list IopInfoPair) :
  count_outcomes f ok (l1 ++ l2) = count_outcomes f ok l1 + count_outcomes f ok l2.
Proof. unfold count_outcomes. rewrite filter_app, length_app, Nat2Z.inj_add. reflexivity. Qed.

Lemma logged_read_bytes_app (l1 l2 : list IopInfoPair) :
  logged_read_bytes (l1 ++ l2) = logged_read_bytes l1 + logged_read_bytes l2.
Proof.
  induction l1 as [| [a r] l1 IH]; simpl; [reflexivity |].
  destruct r as [[n | e] | [n | e] | [n | e] | [u | e]]; rewrite IH; lia.
Qed.

Lemma logged_write_bytes_app (l1 l2 : list IopInfoPair) :
  logged_write_bytes (l1 ++ l2) = logged_write_bytes l1 + logged_write_bytes l2.
Proof.
  induction l1 as [| [a r] l1 IH]; simpl; [reflexivity |].
  destruct r as [[n | e] | [n | e] | [n | e] | [u | e]]; rewrite IH; lia.
Qed.

Lemma replay_cursor_app (pos : Z) (l1 l2 : list IopInfoPair) :
  replay_cursor pos (l1 ++ l2) = replay_cursor (replay_cursor pos l1) l2.
Proof.
  revert pos. induction l1 as [| [a r] l1 IH]; intros pos; simpl; [reflexivity |].
  apply IH.
Qed.

Lemma stats_follow_log_trans {T C} (s1 s2 s3 : IOStatWrapper T C)
  (i1 i2 : list IopInfoPair) :
  stats_follow_log s1 s2 i1 -> stats_follow_log s2 s3 i2 ->
  stats_follow_log s1 s3 (i1 ++ i2).
Proof.
  intros [F1 [R1 [W1 P1]]] [F2 [R2 [W2 P2]]].
  split; [| split; [| split]].
  - intros f. destruct (F1 f) as [A1 B1]. destruct (F2 f) as [A2 B2].
    rewrite !count_outcomes_app, A2, B2, A1, B1, !Z.add_mod_idemp_l by lia.
    split; f_equal; lia.
  - rewrite R2, R1, logged_read_bytes_app, Z.add_mod_idemp_l by lia. f_equal; lia.
  - rewrite W2, W1, logged_write_bytes_app, Z.add_mod_idemp_l by lia. f_equal; lia.
  - rewrite P2, P1, replay_cursor_app. reflexivity.
Qed.

Lemma stats_follow_log_nil {T C} (s : IOStatWrapper T C) :
  wrapper_in_range s = true -> stats_follow_log s s [].
Proof.
  intros Hr. unpack_ranges.
  split; [| split; [| split]].
  - intros f. unfold count_outcomes. simpl. rewrite !Z.add_0_r.
    destruct f; simpl; rewrite !Z.mod_small by lia; split; reflexivity.
  - simpl. rewrite Z.add_0_r, Z.mod_small by lia. reflexivity.
  - simpl. rewrite Z.add_0_r, Z.mod_small by lia. reflexivity.
  - reflexivity.
Qed.

Ltac range_close :=
  unfold wrapper_in_range, sfc_in_range, extend_log; simpl;
  rewrite !(proj2 (in_unsigned_spec _ _));
  [reflexivity | ..];
  unfold u64_bits, usize_bits; rewrite ?two_pow_64 in *;
  first [apply Z.mod_pos_bound; lia | lia].

Ltac follow_close :=
  unfold stats_follow_log, count_outcomes; simpl;
  split; [intros f; destruct f; simpl; split | split; [| split]];
  rewrite ?two_pow_64 in *;
  rewrite ?Z.add_0_r;
  first [reflexivity | rewrite Z.mod_small by lia; reflexivity].

Section CallLemmas.
Context {T C : Type} `{LogContainer C}.

Lemma read_accounting `{Io.Read T} (p : Profile) (s s' : IOStatWrapper T C)
  (buf b : list byte) (r : IOResult Z) :
  wrapper_in_range s = true ->
  read p s buf = Some (s', b, r) ->
  read release_profile s buf = Some (s', b, r) /\ wrapper_in_range s' = true /\
  stats_follow_log s s' (record_of (OpRead buf) (ResRead b r)).
Proof.
  intros Hr. unfold read.
  destruct (Io.read (inner_io s) buf) as [[t b0] [n | e]] eqn:Hin.
  - unfold increment_success.
    destruct (uadd p u64_bits _ 1) as [rc |] eqn:E1; [| discriminate].
    destruct (uadd p usize_bits _ n) as [rb |] eqn:E2; [| discriminate].
    destruct (unwrap (u64_try_from_usize n)) as [d |] eqn:E3; [| discriminate].
    destruct (uadd p u64_bits (seek_pos s) d) as [sp |] eqn:E4; [| discriminate].
    intros E. inversion E; subst; clear E.
    apply u64_try_from_usize_some in E3. destruct E3 as [-> Hn].
    pose proof Hr as Hr0. unpack_ranges.
    apply uadd_mod in E1; [| lia | lia | lia].
    apply uadd_mod in E2; [| lia | lia | lia].
    apply uadd_mod in E4; [| lia | lia | lia].
    subst. split; [| split].
    + rewrite !uadd_overflow_unchecked by reflexivity.
      reflexivity.
    + range_close.
    + follow_close.
  - unfold increment_failure.
    destruct (uadd p u64_bits _ 1) as [fc |] eqn:E1; [| discriminate].
    intros E. inversion E; subst; clear E.
    pose proof Hr as Hr0. unpack_ranges.
    apply uadd_mod in E1; [| lia | lia | lia].
    subst. split; [| split].
    + rewrite !uadd_overflow_unchecked by reflexivity. reflexivity.
    + range_close.
    + follow_close.
Qed.

Lemma write_accounting `{Io.Write T} (p : Profile) (s s' : IOStatWrapper T C)
  (buf : list byte) (r : IOResult Z) :
  wrapper_in_range s = true ->
  write p s buf = Some (s', r) ->
  write release_profile s buf = Some (s', r) /\ wrapper_in_range s' = true /\
  stats_follow_log s s' (record_of (OpWrite buf) (ResWrite r)).
Proof.
  intros Hr. unfold write.
  destruct (Io.write (inner_io s) buf) as [t [n | e]] eqn:Hin.
  - unfold increment_success.
    destruct (uadd p u64_bits _ 1) as [wc |] eqn:E1; [| discriminate].
    destruct (uadd p usize_bits _ n) as [wb |] eqn:E2; [| discriminate].
    destruct (unwrap (u64_try_from_usize n)) as [d |] eqn:E3; [| discriminate].
    destruct (uadd p u64_bits (seek_pos s) d) as [sp |] eqn:E4; [| discriminate].
    intros E. inversion E; subst; clear E.
    apply u64_try_from_usize_some in E3. destruct E3 as [-> Hn].
    pose proof Hr as Hr0. unpack_ranges.
    apply uadd_mod in E1; [| lia | lia | lia].
    apply uadd_mod in E2; [| lia | lia | lia].
    apply uadd_mod in E4; [| lia | lia | lia].
    subst. split; [| split].
    + rewrite !uadd_overflow_unchecked by reflexivity. reflexivity.
    + range_close.
    + follow_close.
  - unfold increment_failure.
    destruct (uadd p u64_bits _ 1) as [fc |] eqn:E1; [| discriminate].
    intros E. inversion E; subst; clear E.
    pose proof Hr as Hr0. unpack_ranges.
    apply uadd_mod in E1; [| lia | lia | lia].
    subst. split; [| split].
    + rewrite !uadd_overflow_unchecked by reflexivity. reflexivity.
    + range_close.
    + follow_close.
Qed.

Lemma seek_accounting `{Io.Seek T} (p : Profile) (s s' : IOStatWrapper T C)
  (pos : SeekFrom.t) (r : IOResult Z) :
  wrapper_in_range s = true ->
  result_in_range (ResSeek r) = true ->
  seek p s pos = Some (s', r) ->
  seek release_profile s pos = Some (s', r) /\ wrapper_in_range s' = true /\
  stats_follow_log s s' (record_of (OpSeek pos) (ResSeek r)).
Proof.
  intros Hr Hres. unfold seek. cbv zeta.
  destruct (Io.seek (inner_io s) pos) as [t [n | e]] eqn:Hin.
  - unfold increment_success.
    destruct (uadd p u64_bits _ 1) as [sc |] eqn:E1; [| discriminate].
    destruct (match pos with
              | SeekFrom.Current offset => seek_current_check p (seek_pos s) offset n
              | _ => ret tt end) as [u |] eqn:Ec; [| discriminate].
    intros E. inversion E; subst; clear E.
    simpl in Hres. apply in_unsigned_spec in Hres.
    pose proof Hr as Hr0. unpack_ranges.
    apply uadd_mod in E1; [| lia | lia | lia].
    subst. split; [| split].
    + rewrite !uadd_overflow_unchecked by reflexivity.
      destruct pos as [k | d | d]; try reflexivity.
      destruct u. rewrite (seek_current_check_release p _ _ _ Ec). reflexivity.
    + range_close.
    + follow_close.
  - unfold increment_failure.
    destruct (uadd p u64_bits _ 1) as [fc |] eqn:E1; [| discriminate].
    intros E. inversion E; subst; clear E.
    pose proof Hr as Hr0. unpack_ranges.
    apply uadd_mod in E1; [| lia | lia | lia].
    subst. split; [| split].
    + rewrite !uadd_overflow_unchecked by reflexivity. reflexivity.
    + range_close.
    + follow_close.
Qed.

Lemma flush_accounting `{Io.Write T} (p : Profile) (s s' : IOStatWrapper T C)
  (r : IOResult unit) :
  wrapper_in_range s = true ->
  flush p s = Some (s', r) ->
  flush release_profile s = Some (s', r) /\ wrapper_in_range s' = true /\
  stats_follow_log s s' (record_of OpFlush (ResFlush r)).
Proof.
  intros Hr. unfold flush.
  destruct (Io.flush (inner_io s)) as [t [[] | e]] eqn:Hin.
  - unfold increment_success.
    destruct (uadd p u64_bits _ 1) as [fc |] eqn:E1; [| discriminate].
    intros E. inversion E; subst; clear E.
    pose proof Hr as Hr0. unpack_ranges.
    apply uadd_mod in E1; [| lia | lia | lia].
    subst. split; [| split].
    + rewrite !uadd_overflow_unchecked by reflexivity. reflexivity.
    + range_close.
    + follow_close.
  - unfold increment_failure.
    destruct (uadd p u64_bits _ 1) as [fc |] eqn:E1; [| discriminate].
    intros E. inversion E; subst; clear E.
    pose proof Hr as Hr0. unpack_ranges.
    apply uadd_mod in E1; [| lia | lia | lia].
    subst. split; [| split].
    + rewrite !uadd_overflow_unchecked by reflexivity. reflexivity.
    + range_close.
    + follow_close.
Qed.

(** The record a returning call appends, whatever the counters hold. *)
Lemma read_log `{Io.Read T} (p : Profile) (s s' : IOStatWrapper T C)
  (buf b : list byte) (r : IOResult Z) :
  read p s buf = Some (s', b, r) ->
  iop_log s' = log_extend (iop_log s) (record_of (OpRead buf) (ResRead b r)).
Proof.
  unfold read.
  destruct (Io.read (inner_io s) buf) as [[t b0] [n | e]].
  - unfold increment_success.
    destruct (uadd p u64_bits _ 1); [| discriminate].
    destruct (uadd p usize_bits _ n); [| discriminate].
    destruct (unwrap (u64_try_from_usize n)); [| discriminate].
    destruct (uadd p u64_bits (seek_pos s) _); [| discriminate].
    intros E. inversion E; subst. reflexivity.
  - unfold increment_failure.
    destruct (uadd p u64_bits _ 1); [| discriminate].
    intros E. inversion E; subst. reflexivity.
Qed.

Lemma write_log `{Io.Write T} (p : Profile) (s s' : IOStatWrapper T C)
  (buf : list byte) (r : IOResult Z) :
  write p s buf = Some (s', r) ->
  iop_log s' = log_extend (iop_log s) (record_of (OpWrite buf) (ResWrite r)).
Proof.
  unfold write.
  destruct (Io.write (inner_io s) buf) as [t [n | e]].
  - unfold increment_success.
    destruct (uadd p u64_bits _ 1); [| discriminate].
    destruct (uadd p usize_bits _ n); [| discriminate].
    destruct (unwrap (u64_try_from_usize n)); [| discriminate].
    destruct (uadd p u64_bits (seek_pos s) _); [| discriminate].
    intros E. inversion E; subst. reflexivity.
  - unfold increment_failure.
    destruct (uadd p u64_bits _ 1); [| discriminate].
    intros E. inversion E; subst. reflexivity.
Qed.

Lemma seek_log `{Io.Seek T} (p : Profile) (s s' : IOStatWrapper T C)
  (pos : SeekFrom.t) (r : IOResult Z) :
  seek p s pos = Some (s', r) ->
  iop_log s' = log_extend (iop_log s) (record_of (OpSeek pos) (ResSeek r)).
Proof.
  unfold seek. cbv zeta.
  destruct (Io.seek (inner_io s) pos) as [t [n | e]].
  - unfold increment_success.
    destruct (uadd p u64_bits _ 1); [| discriminate].
    destruct (match pos with
              | SeekFrom.Current offset => seek_current_check p (seek_pos s) offset n
              | _ => ret tt end); [| discriminate].
    intros E. inversion E; subst. reflexivity.
  - unfold increment_failure.
    destruct (uadd p u64_bits _ 1); [| discriminate].
    intros E. inversion E; subst. reflexivity.
Qed.

Lemma flush_log `{Io.Write T} (p : Profile) (s s' : IOStatWrapper T C)
  (r : IOResult unit) :
  flush p s = Some (s', r) ->
  iop_log s' = log_extend (iop_log s) (record_of OpFlush (ResFlush r)).
Proof.
  unfold flush.
  destruct (Io.flush (inner_io s)) as [t [[] | e]].
  - unfold increment_success.
    destruct (uadd p u64_bits _ 1); [| discriminate].
    intros E. inversion E; subst. reflexivity.
  - unfold increment_failure.
    destruct (uadd p u64_bits _ 1); [| discriminate].
    intros E. inversion E; subst. reflexivity.
Qed.

End CallLemmas.

Section RunLemmas.
Context {T C : Type} `{LogContainer C} `{Io.Read T} `{Io.Seek T} `{Io.Write T}.

Lemma call_inner (p : Profile) (s s' : IOStatWrapper T C) (op : Op) (r : OpResult) :
  call p s op = Some (s', r) -> inner_call (inner_io s) op = (inner_io s', r).
Proof.
  destruct op as [buf | pos | buf |]; unfold call, inner_call.
  - destruct (read p s buf) as [[[s1 b] r1] |] eqn:E; [| discriminate].
    intros X. inversion X; subst. rewrite (read_returns_inner p s s' buf b r1 E).
    reflexivity.
  - destruct (seek p s pos) as [[s1 r1] |] eqn:E; [| discriminate].
    intros X. inversion X; subst. rewrite (seek_returns_inner p s s' pos r1 E).
    reflexivity.
  - destruct (write p s buf) as [[s1 r1] |] eqn:E; [| discriminate].
    intros X. inversion X; subst. rewrite (write_returns_inner p s s' buf r1 E).
    reflexivity.
  - destruct (flush p s) as [[s1 r1] |] eqn:E; [| discriminate].
    intros X. inversion X; subst. rewrite (flush_returns_inner p s s' r1 E).
    reflexivity.
Qed.

Lemma call_log (p : Profile) (s s' : IOStatWrapper T C) (op : Op) (r : OpResult) :
  call p s op = Some (s', r) -> iop_log s' = log_extend (iop_log s) (record_of op r).
Proof.
  destruct op as [buf | pos | buf |]; unfold call.
  - destruct (read p s buf) as [[[s1 b] r1] |] eqn:E; [| discriminate].
    intros X. inversion X; subst. exact (read_log p s s' buf b r1 E).
  - destruct (seek p s pos) as [[s1 r1] |] eqn:E; [| discriminate].
    intros X. inversion X; subst. exact (seek_log p s s' pos r1 E).
  - destruct (write p s buf) as [[s1 r1] |] eqn:E; [| discriminate].
    intros X. inversion X; subst. exact (write_log p s s' buf r1 E).
  - destruct (flush p s) as [[s1 r1] |] eqn:E; [| discriminate].
    intros X. inversion X; subst. exact (flush_log p s s' r1 E).
Qed.

Lemma call_accounting (p : Profile) (s s' : IOStatWrapper T C) (op : Op)
  (r : OpResult) :
  wrapper_in_range s = true -> result_in_range r = true ->
  call p s op = Some (s', r) ->
  call release_profile s op = Some (s', r) /\ wrapper_in_range s' = true /\
  stats_follow_log s s' (record_of op r).
Proof.
  intros Hr Hres. destruct op as [buf | pos | buf |]; unfold call.
  - destruct (read p s buf) as [[[s1 b] r1] |] eqn:E; [| discriminate].
    intros X. inversion X; subst.
    destruct (read_accounting p s s' buf b r1 Hr E) as [A B].
    rewrite A. auto.
  - destruct (seek p s pos) as [[s1 r1] |] eqn:E; [| discriminate].
    intros X. inversion X; subst.
    destruct (seek_accounting p s s' pos r1 Hr Hres E) as [A B].
    rewrite A. auto.
  - destruct (write p s buf) as [[s1 r1] |] eqn:E; [| discriminate].
    intros X. inversion X; subst.
    destruct (write_accounting p s s' buf r1 Hr E) as [A B].
    rewrite A. auto.
  - destruct (flush p s) as [[s1 r1] |] eqn:E; [| discriminate].
    intros X. inversion X; subst.
    destruct (flush_accounting p s s' r1 Hr E) as [A B].
    rewrite A. auto.
Qed.

Lemma call_record_length (p : Profile) (s s' : IOStatWrapper T C) (op : Op)
  (r : OpResult) :
  call p s op = Some (s', r) -> length (record_of op r) = 1%nat.
Proof.
  destruct op as [buf | pos | buf |]; unfold call.
  - destruct (read p s buf) as [[[s1 b] r1] |]; [| discriminate].
    intros X. inversion X; subst. reflexivity.
  - destruct (seek p s pos) as [[s1 r1] |]; [| discriminate].
    intros X. inversion X; subst. reflexivity.
  - destruct (write p s buf) as [[s1 r1] |]; [| discriminate].
    intros X. inversion X; subst. reflexivity.
  - destruct (flush p s) as [[s1 r1] |]; [| discriminate].
    intros X. inversion X; subst. reflexivity.
Qed.

Lemma run_calls_inner (p : Profile) (ops : list Op) :
  forall (s s' : IOStatWrapper T C) rs,
  run_calls p s ops = Some (s', rs) -> run_inner (inner_io s) ops = (inner_io s', rs).
Proof.
  induction ops as [| op ops IH]; intros s s' rs; simpl.
  - intros X. inversion X; subst. reflexivity.
  - destruct (call p s op) as [[s1 r] |] eqn:E; [| discriminate].
    destruct (run_calls p s1 ops) as [[s2 rs2] |] eqn:E2; [| discriminate].
    intros X. inversion X; subst.
    rewrite (call_inner p s s1 op r E), (IH s1 s' rs2 E2). reflexivity.
Qed.

Lemma run_calls_accounting (p : Profile) (ops : list Op) :
  forall (s s' : IOStatWrapper T C) rs,
  wrapper_in_range s = true -> forallb result_in_range rs = true ->
  run_calls p s ops = Some (s', rs) ->
  run_calls release_profile s ops = Some (s', rs) /\ wrapper_in_range s' = true /\
  stats_follow_log s s' (records_of ops rs).
Proof.
  induction ops as [| op ops IH]; intros s s' rs Hr Hres; simpl.
  - intros X. inversion X; subst. split; [reflexivity | split; [exact Hr |]].
    apply stats_follow_log_nil. exact Hr.
  - destruct (call p s op) as [[s1 r] |] eqn:E; [| discriminate].
    destruct (run_calls p s1 ops) as [[s2 rs2] |] eqn:E2; [| discriminate].
    intros X. inversion X; subst. simpl in Hres.
    apply andb_true_iff in Hres. destruct Hres as [Hr1 Hrs].
    destruct (call_accounting p s s1 op r Hr Hr1 E) as [A [B D]].
    destruct (IH s1 s' rs2 B Hrs E2) as [A' [B' D']].
    rewrite A, A'. split; [reflexivity | split; [exact B' |]].
    exact (stats_follow_log_trans s s1 s' _ _ D D').
Qed.

Lemma call_release_total (s : IOStatWrapper T C) (op : Op) :
  wrapper_in_range s = true -> op_well_formed op = true ->
  result_in_range (snd (inner_call (inner_io s) op)) = true ->
  exists s', call release_profile s op = Some (s', snd (inner_call (inner_io s) op)).
Proof.
  intros Hr Hwf. destruct op as [buf | pos | buf |]; unfold call, inner_call.
  - unfold read. destruct (Io.read (inner_io s) buf) as [[t b] [n | e]]; simpl.
    + intros Hn. unfold increment_success.
      rewrite ?uadd_overflow_unchecked by reflexivity.
      unfold unwrap, u64_try_from_usize.
      replace (in_unsigned u64_bits n) with true by (symmetry; exact Hn).
      eexists. reflexivity.
    + intros _. unfold increment_failure.
      rewrite ?uadd_overflow_unchecked by reflexivity. eexists. reflexivity.
  - unfold seek. cbv zeta. destruct (Io.seek (inner_io s) pos) as [t [n | e]]; simpl.
    + intros _. unfold increment_success.
      rewrite ?uadd_overflow_unchecked by reflexivity.
      destruct pos as [k | d | d]; [eexists; reflexivity | eexists; reflexivity |].
      simpl in Hwf.
      rewrite (seek_current_check_no_debug release_profile (seek_pos s) d n
                 eq_refl Hwf).
      eexists. reflexivity.
    + intros _. unfold increment_failure.
      rewrite ?uadd_overflow_unchecked by reflexivity. eexists. reflexivity.
  - unfold write. destruct (Io.write (inner_io s) buf) as [t [n | e]]; simpl.
    + intros Hn. unfold increment_success.
      rewrite ?uadd_overflow_unchecked by reflexivity.
      unfold unwrap, u64_try_from_usize.
      replace (in_unsigned u64_bits n) with true by (symmetry; exact Hn).
      eexists. reflexivity.
    + intros _. unfold increment_failure.
      rewrite ?uadd_overflow_unchecked by reflexivity. eexists. reflexivity.
  - unfold flush. destruct (Io.flush (inner_io s)) as [t [[] | e]]; simpl.
    + intros _. unfold increment_success.
      rewrite ?uadd_overflow_unchecked by reflexivity. eexists. reflexivity.
    + intros _. unfold increment_failure.
      rewrite ?uadd_overflow_unchecked by reflexivity. eexists. reflexivity.
Qed.

End RunLemmas.

Section RunLemmas2.
Context {T C : Type} `{LogContainer C} `{Io.Read T} `{Io.Seek T} `{Io.Write T}.

Lemma run_release_total (ops : list Op) :
  forall (s : IOStatWrapper T C),
  wrapper_in_range s = true -> forallb op_well_formed ops = true ->
  forallb result_in_range (snd (run_inner (inner_io s) ops)) = true ->
  exists s', run_calls release_profile s ops = Some (s', snd (run_inner (inner_io s) ops)).
Proof.
  induction ops as [| op ops IH]; intros s Hr Hwf Hres.
  - exists s. reflexivity.
  - simpl in Hwf. apply andb_true_iff in Hwf. destruct Hwf as [Hw1 Hw2].
    simpl run_inner in Hres |- *.
    destruct (inner_call (inner_io s) op) as [t1 r] eqn:Ei.
    destruct (run_inner t1 ops) as [t2 rs] eqn:Er.
    simpl in Hres. apply andb_true_iff in Hres. destruct Hres as [Hr1 Hrs].
    destruct (call_release_total s op Hr Hw1) as [s1 E1]; [rewrite Ei; exact Hr1 |].
    rewrite Ei in E1. simpl in E1.
    pose proof (call_inner release_profile s s1 op r E1) as Ci.
    rewrite Ei in Ci. injection Ci as Ht.
    destruct (call_accounting release_profile s s1 op r Hr Hr1 E1) as [_ [B _]].
    destruct (IH s1 B Hw2) as [s2 E2]; [rewrite <- Ht, Er; exact Hrs |].
    rewrite <- Ht, Er in E2. simpl in E2.
    exists s2. simpl. rewrite E1, E2. reflexivity.
Qed.

End RunLemmas2.

Lemma new_in_range {T C} `{LogContainer C} (obj : T) (p0 : Z) :
  0 <= p0 < 2 ^ 64 -> wrapper_in_range (new obj p0 : IOStatWrapper T C) = true.
Proof.
  intros Hp. unfold wrapper_in_range, new. simpl.
  rewrite (proj2 (in_unsigned_spec u64_bits p0)) by (unfold u64_bits; lia).
  reflexivity.
Qed.

Section VecLog.
Context {T : Type} `{Io.Read T} `{Io.Seek T} `{Io.Write T}.

Lemma run_calls_log_vec (p : Profile) (ops : list Op) :
  forall (s s' : IOStatWrapper T (list IopInfoPair)) rs,
  run_calls p s ops = Some (s', rs) ->
  iop_log s' = iop_log s ++ records_of ops rs /\
  length (records_of ops rs) = length ops.
Proof.
  induction ops as [| op ops IH]; intros s s' rs; simpl.
  - intros X. inversion X; subst. simpl. rewrite app_nil_r. split; reflexivity.
  - destruct (call p s op) as [[s1 r] |] eqn:E; [| discriminate].
    destruct (run_calls p s1 ops) as [[s2 rs2] |] eqn:E2; [| discriminate].
    intros X. inversion X; subst. simpl.
    destruct (IH s1 s' rs2 E2) as [L1 L2].
    rewrite L1, (call_log p s s1 op r E). simpl.
    rewrite length_app, L2, (call_record_length p s s1 op r E), app_assoc.
    split; reflexivity.
Qed.

(** From a fresh wrapper, the statistics follow from its own log. *)
Lemma run_from_new (p : Profile) (obj : T) (p0 : Z) (ops : list Op)
  (s' : IOStatWrapper T (list IopInfoPair)) (rs : list OpResult) :
  0 <= p0 < 2 ^ 64 -> forallb result_in_range rs = true ->
  run_calls p (new obj p0) ops = Some (s', rs) ->
  stats_follow_log (new obj p0) s' (iop_log s').
Proof.
  intros Hp Hres E.
  destruct (run_calls_accounting p ops (new obj p0) s' rs
              (new_in_range obj p0 Hp) Hres E) as [_ [_ D]].
  destruct (run_calls_log_vec p ops (new obj p0) s' rs E) as [L _].
  rewrite L. exact D.
Qed.

End VecLog.

(** ** Further properties of the wrapper *)

(** A concrete run made into hypotheses: its final state, its results, and
    the fact that each result is a [usize]/[u64] value. *)
Ltac concrete_run s' rs E Hrs :=
  lazymatch goal with
  | |- context [run_calls ?p ?s ?ops] =>
      assert (Hrs : option_map (fun x => forallb result_in_range (snd x))
                      (run_calls p s ops) = Some true) by (vm_compute; reflexivity);
      revert Hrs;
      destruct (run_calls p s ops) as [[s' rs] |] eqn:E;
      intros Hrs; [simpl in Hrs; injection Hrs as Hrs | discriminate Hrs]
  end.

(** The wrapper is transparent: for every run of [read], [seek], [write] and
    [flush] calls that returns, the results handed to the caller and the
    object [into_inner] gives back are exactly those of making the same calls
    on the wrapped object directly, in any build. *)
Theorem wrapped_run_matches_direct_run {T C : Type} `{LogContainer C}
  `{Io.Read T} `{Io.Seek T} `{Io.Write T}
  (p : Profile) (s s' : IOStatWrapper T C) (ops : list Op) (rs : list OpResult) :
  run_calls p s ops = Some (s', rs) ->
  run_inner (inner_io s) ops = (into_inner s', rs).
Proof. intros E. exact (run_calls_inner p ops s s' rs E). Qed.

Lemma wrapped_run_matches_direct_run_witness :
  exists s' rs,
    run_calls dev_profile (cursor_wrapper test_bytes 0 0) sample_calls = Some (s', rs) /\
    run_inner (inner_io (cursor_wrapper test_bytes 0 0)) sample_calls = (into_inner s', rs).
Proof.
  concrete_run s' rs E Hrs.
  exists s', rs. split; [reflexivity |].
  exact (wrapped_run_matches_direct_run dev_profile _ s' sample_calls rs E).
Defined.

(** With the [Vec] log, a run that returns appends exactly one record per
    call, in call order: the request (a read's or write's buffer length, a
    seek's [SeekFrom], or [Flush]) with the outcome, its error reduced to the
    [ErrorKind]; nothing else is added or removed. *)
Theorem vec_log_one_record_per_call {T : Type} `{Io.Read T} `{Io.Seek T} `{Io.Write T}
  (p : Profile) (s s' : IOStatWrapper T (list IopInfoPair)) (ops : list Op)
  (rs : list OpResult) :
  run_calls p s ops = Some (s', rs) ->
  iop_log s' = iop_log s ++ records_of ops rs /\
  length (iop_log s') = (length (iop_log s) + length ops)%nat.
Proof.
  intros E. destruct (run_calls_log_vec p ops s s' rs E) as [L N].
  split; [exact L |]. rewrite L, length_app, N. reflexivity.
Qed.

Lemma vec_log_one_record_per_call_witness :
  exists s' rs,
    run_calls dev_profile (cursor_wrapper test_bytes 0 0) sample_calls = Some (s', rs) /\
    length (iop_log s') = 5%nat.
Proof.
  concrete_run s' rs E Hrs.
  exists s', rs. split; [reflexivity |].
  exact (proj2 (vec_log_one_record_per_call dev_profile _ s' sample_calls rs E)).
Defined.

(** For a wrapper made by [new] with the [Vec] log, after any run that
    returns (each wrapped result a [usize]/[u64]), each family's success and
    failure counters equal the number of [Ok] and [Err] records of that
    family in the log, modulo 2^64; this holds in every build. *)
Theorem counters_count_log_records {T : Type} `{Io.Read T} `{Io.Seek T} `{Io.Write T}
  (p : Profile) (obj : T) (p0 : Z) (ops : list Op)
  (s' : IOStatWrapper T (list IopInfoPair)) (rs : list OpResult) :
  0 <= p0 < 2 ^ 64 -> forallb result_in_range rs = true ->
  run_calls p (new obj p0) ops = Some (s', rs) ->
  forall f,
    success_ctr (family_counter s' f) = count_outcomes f true (iop_log s') mod 2 ^ 64 /\
    failure_ctr (family_counter s' f) = count_outcomes f false (iop_log s') mod 2 ^ 64.
Proof.
  intros Hp Hres E f.
  destruct (run_from_new p obj p0 ops s' rs Hp Hres E) as [F _].
  destruct (F f) as [A B]. rewrite A, B. destruct f; split; reflexivity.
Qed.

Lemma counters_count_log_records_witness :
  exists s' rs,
    run_calls dev_profile (cursor_wrapper test_bytes 0 0) sample_calls = Some (s', rs) /\
    success_ctr (seek_call_counter s') = count_outcomes FamSeek true (iop_log s') mod 2 ^ 64 /\
    failure_ctr (seek_call_counter s') = count_outcomes FamSeek false (iop_log s') mod 2 ^ 64.
Proof.
  concrete_run s' rs E Hrs.
  exists s', rs. split; [reflexivity |].
  exact (counters_count_log_records dev_profile (Cursor.mk test_bytes 0) 0
           sample_calls s' rs ltac:(rewrite two_pow_64; lia) Hrs E FamSeek).
Defined.

(** For a wrapper made by [new] with the [Vec] log, after any run that
    returns, the read-byte and write-byte totals are the sums of the byte
    counts of the successful read and write records in the log, modulo 2^64. *)
Theorem byte_totals_sum_log_records {T : Type} `{Io.Read T} `{Io.Seek T} `{Io.Write T}
  (p : Profile) (obj : T) (p0 : Z) (ops : list Op)
  (s' : IOStatWrapper T (list IopInfoPair)) (rs : list OpResult) :
  0 <= p0 < 2 ^ 64 -> forallb result_in_range rs = true ->
  run_calls p (new obj p0) ops = Some (s', rs) ->
  read_byte_counter s' = logged_read_bytes (iop_log s') mod 2 ^ 64 /\
  write_byte_counter s' = logged_write_bytes (iop_log s') mod 2 ^ 64.
Proof.
  intros Hp Hres E.
  destruct (run_from_new p obj p0 ops s' rs Hp Hres E) as [_ [R [W _]]].
  rewrite R, W. split; reflexivity.
Qed.

Lemma byte_totals_sum_log_records_witness :
  exists s' rs,
    run_calls dev_profile (cursor_wrapper test_bytes 0 0) sample_calls = Some (s', rs) /\
    read_byte_counter s' = logged_read_bytes (iop_log s') mod 2 ^ 64 /\
    write_byte_counter s' = logged_write_bytes (iop_log s') mod 2 ^ 64.
Proof.
  concrete_run s' rs E Hrs.
  exists s', rs. split; [reflexivity |].
  exact (byte_totals_sum_log_records dev_profile (Cursor.mk test_bytes 0) 0
           sample_calls s' rs ltac:(rewrite two_pow_64; lia) Hrs E).
Defined.

(** For a wrapper made by [new(obj, p0)] with the [Vec] log, after any run
    that returns, the shadow cursor is the log replayed from [p0]: every
    successful seek sets it to the returned position, every successful read
    or write moves it forward by the returned count modulo 2^64, and failed
    calls leave it. *)
Theorem cursor_replays_log {T : Type} `{Io.Read T} `{Io.Seek T} `{Io.Write T}
  (p : Profile) (obj : T) (p0 : Z) (ops : list Op)
  (s' : IOStatWrapper T (list IopInfoPair)) (rs : list OpResult) :
  0 <= p0 < 2 ^ 64 -> forallb result_in_range rs = true ->
  run_calls p (new obj p0) ops = Some (s', rs) ->
  seek_pos s' = replay_cursor p0 (iop_log s').
Proof.
  intros Hp Hres E.
  destruct (run_from_new p obj p0 ops s' rs Hp Hres E) as [_ [_ [_ P]]].
  exact P.
Qed.

Lemma cursor_replays_log_witness :
  exists s' rs,
    run_calls dev_profile (cursor_wrapper test_bytes 0 0) sample_calls = Some (s', rs) /\
    seek_pos s' = replay_cursor 0 (iop_log s').
Proof.
  concrete_run s' rs E Hrs.
  exists s', rs. split; [reflexivity |].
  exact (cursor_replays_log dev_profile (Cursor.mk test_bytes 0) 0
           sample_calls s' rs ltac:(rewrite two_pow_64; lia) Hrs E).
Defined.

(** Builds differ only in panicking: whenever a run returns in a build with
    overflow checks or debug assertions (each wrapped result a [usize]/[u64]),
    the release build returns the same final wrapper and the same results. *)
Theorem checked_run_agrees_with_release {T C : Type} `{LogContainer C}
  `{Io.Read T} `{Io.Seek T} `{Io.Write T}
  (p : Profile) (s s' : IOStatWrapper T C) (ops : list Op) (rs : list OpResult) :
  wrapper_in_range s = true -> forallb result_in_range rs = true ->
  run_calls p s ops = Some (s', rs) ->
  run_calls release_profile s ops = Some (s', rs).
Proof.
  intros Hr Hres E. exact (proj1 (run_calls_accounting p ops s s' rs Hr Hres E)).
Qed.

Lemma checked_run_agrees_with_release_witness :
  exists s' rs,
    run_calls dev_profile (cursor_wrapper test_bytes 0 0) sample_calls = Some (s', rs) /\
    run_calls release_profile (cursor_wrapper test_bytes 0 0) sample_calls = Some (s', rs).
Proof.
  concrete_run s' rs E Hrs.
  exists s', rs. split; [reflexivity |].
  exact (checked_run_agrees_with_release dev_profile (cursor_wrapper test_bytes 0 0)
           s' sample_calls rs ltac:(vm_compute; reflexivity) Hrs E).
Defined.

(** A release build never panics: from a wrapper whose fields are in range,
    a run of calls whose seek requests are well-formed [SeekFrom] values and
    whose wrapped results are [usize]/[u64] values always returns, with the
    wrapped object's own results. *)
Theorem release_run_never_panics {T C : Type} `{LogContainer C}
  `{Io.Read T} `{Io.Seek T} `{Io.Write T}
  (s : IOStatWrapper T C) (ops : list Op) :
  wrapper_in_range s = true -> forallb op_well_formed ops = true ->
  forallb result_in_range (snd (run_inner (inner_io s) ops)) = true ->
  exists s', run_calls release_profile s ops = Some (s', snd (run_inner (inner_io s) ops)).
Proof. exact (run_release_total ops s). Qed.

(** The shadow cursor starts at 2^64 - 1, so the first read wraps it. *)
Lemma release_run_never_panics_witness :
  exists s',
    run_calls release_profile (cursor_wrapper test_bytes 0 18446744073709551615)
      sample_calls
    = Some (s', snd (run_inner (Cursor.mk test_bytes 0) sample_calls)).
Proof.
  exact (release_run_never_panics (cursor_wrapper test_bytes 0 18446744073709551615)
           sample_calls ltac:(vm_compute; reflexivity) ltac:(vm_compute; reflexivity)
           ltac:(vm_compute; reflexivity)).
Defined.

(** [flush] counts the wrapped object's outcome in the flush counter and
    appends one [(Flush, Flush(outcome kind))] record; it never touches the
    read, seek or write counters, the byte totals or the shadow cursor, and it
    returns whenever the counted field stays below 2^64. *)
Theorem flush_counts_outcome {T C : Type} `{LogContainer C} `{Io.Write T}
  (p : Profile) (s : IOStatWrapper T C) :
  wrapper_in_range s = true ->
  match snd (Io.flush (inner_io s)) with
  | Ok _ => success_ctr (write_flush_counter s) + 1 < 2 ^ 64
  | Err _ => failure_ctr (write_flush_counter s) + 1 < 2 ^ 64
  end ->
  flush p s =
    Some ({| inner_io := fst (Io.flush (inner_io s));
             iop_log := log_extend (iop_log s)
                          [(IopActions.Flush,
                            IopResults.Flush (result_kind (snd (Io.flush (inner_io s)))))];
             read_call_counter := read_call_counter s;
             read_byte_counter := read_byte_counter s;
             seek_call_counter := seek_call_counter s;
             seek_pos := seek_pos s;
             write_call_counter := write_call_counter s;
             write_flush_counter :=
               match snd (Io.flush (inner_io s)) with
               | Ok _ => mkSFC (success_ctr (write_flush_counter s) + 1)
                               (failure_ctr (write_flush_counter s))
               | Err _ => mkSFC (success_ctr (write_flush_counter s))
                                (failure_ctr (write_flush_counter s) + 1)
               end;
             write_byte_counter := write_byte_counter s |},
          snd (Io.flush (inner_io s))).
Proof.
  intros Hr. unfold flush.
  destruct (Io.flush (inner_io s)) as [t [[] | e]]; intros Hlt; simpl in Hlt;
    unpack_ranges.
  - unfold increment_success.
    rewrite uadd_no_overflow by (rewrite ?two_pow_64 in *; lia). reflexivity.
  - unfold increment_failure.
    rewrite uadd_no_overflow by (rewrite ?two_pow_64 in *; lia). reflexivity.
Qed.

Lemma flush_counts_outcome_witness :
  exists s',
    flush dev_profile (cursor_wrapper test_bytes 0 0) = Some (s', Ok tt) /\
    write_flush_counter s' = mkSFC 1 0.
Proof.
  eexists. split.
  - exact (flush_counts_outcome dev_profile (cursor_wrapper test_bytes 0 0)
             ltac:(vm_compute; reflexivity) ltac:(close_concrete)).
  - reflexivity.
Defined.

(** As [examples/bufread_assert_seek_zero.rs] asserts: in a build with debug
    assertions, a [seek(SeekFrom::Current(0))] that returns [Ok(n)] has [n]
    equal to the shadow cursor, which it leaves where it was. *)
Theorem seek_current_zero_reports_cursor {T C : Type} `{LogContainer C} `{Io.Seek T}
  (p : Profile) (s s' : IOStatWrapper T C) (n : Z) :
  debug_assertions p = true ->
  seek p s (SeekFrom.Current 0) = Some (s', Ok n) ->
  n = seek_pos s /\ seek_pos s' = seek_pos s.
Proof.
  intros Hp. unfold seek. cbv zeta.
  destruct (Io.seek (inner_io s) (SeekFrom.Current 0)) as [t [m | e]].
  - unfold increment_success.
    destruct (uadd p u64_bits _ 1); [| discriminate].
    unfold seek_current_check, debug_assert_eq, assert_true. rewrite Hp.
    simpl abs_sign_tuple. cbv beta iota.
    intros X. simpl in X.
    destruct (seek_pos s =? m) eqn:Em; [| discriminate X].
    apply Z.eqb_eq in Em.
    inversion X; subst. simpl. split; reflexivity.
  - unfold increment_failure.
    destruct (uadd p u64_bits _ 1); [| discriminate].
    intros X. inversion X.
Qed.

Lemma seek_current_zero_reports_cursor_witness :
  exists s',
    seek dev_profile (cursor_wrapper test_bytes 3 3) (SeekFrom.Current 0)
      = Some (s', Ok 3) /\ seek_pos s' = 3.
Proof.
  destruct (seek dev_profile (cursor_wrapper test_bytes 3 3) (SeekFrom.Current 0))
    as [[s' r] |] eqn:E; [| vm_compute in E; discriminate E].
  assert (Er : Some r = Some (Ok 3)).
  { change (option_map snd (Some (s', r)) = Some (Ok 3)).
    rewrite <- (f_equal (option_map snd) E). vm_compute. reflexivity. }
  injection Er as Er. subst r.
  exists s'. split; [reflexivity |].
  exact (proj2 (seek_current_zero_reports_cursor dev_profile _ s' 3 eq_refl E)).
Defined.
